(** * duplicateScanner: the file registry and the traversal driver

    A shallow embedding of [duplicateTracker.c] and of the system
    independent part of [duplicateScanner.c].

    Conventions of the embedding (LP64, as on the POSIX systems the
    program targets through [sys/dir.h] and [dirent.h]):
    - [long] and [time_t] are 64-bit two's complement integers, carried
      as [Z] with the wrap-around written out ([wrap_long]); signed
      overflow wraps, as the multiplication in [hash] relies on;
    - plain [char] is signed, a byte of memory is an [ascii] and
      [char_val] gives the value it promotes to;
    - a pointer into a character array is the list of the bytes from the
      pointer to the end of the object, so that a read of the empty list
      is a read outside the object;
    - the NULL chain of a bucket is the empty list, and the table that
      [calloc] returns is the empty map read with a default;
    - [difftime] is the exact difference of its arguments (only its sign
      is ever used). *)

From Stdlib Require Import ZArith Lia Ascii String List.
From stdpp Require Import base option list sorting gmap.

Open Scope Z_scope.

(** ** Symbolic constants *)

(* duplicateTracker.h *)
Definition NAME_MAX : nat := 255.
Definition MAX_PATH : nat := 4096.

(* duplicateTracker.c *)
Definition TBL_SIZE : Z := 512000.
Definition FNV_PRIME : Z := 16777619.
Definition FNV_OFFSET : Z := 2166136261.

Definition LONG_MAX : Z := 2 ^ 63 - 1.
Definition LONG_MIN : Z := - 2 ^ 63.

(** The value of a [long] expression whose mathematical value is [z]. *)
Definition wrap_long (z : Z) : Z := (z + 2 ^ 63) mod 2 ^ 64 - 2 ^ 63.

(** ** Characters and memory *)

Definition NUL : ascii := Ascii.zero.
Definition SLASH : ascii := "/"%char.

Definition is_nul (c : ascii) : bool := Ascii.eqb c NUL.

(** Integer promotion of a (signed) [char]. *)
Definition char_val (c : ascii) : Z :=
  let n := Z.of_N (N_of_ascii c) in
  if 128 <=? n then n - 256 else n.

(** The bytes of a string literal or NUL-terminated array holding [s]. *)
Definition cstr (s : string) : list ascii := list_ascii_of_string s ++ [NUL].

(** What a function that walks a character array did: it finished with a
    value after reading the bytes at offsets [0 .. nread - 1], or its
    read at offset [off] fell outside the array. *)
Inductive access (A : Type) : Type :=
| Done (a : A) (nread : nat)
| OutOfBounds (off : nat).
Arguments Done {A} a nread.
Arguments OutOfBounds {A} off.

Definition access_value {A} (r : access A) : option A :=
  match r with
  | Done a _ => Some a
  | OutOfBounds _ => None
  end.

(** Number of bytes the function tried to read. *)
Definition access_reads {A} (r : access A) : nat :=
  match r with
  | Done _ n => n
  | OutOfBounds off => S off
  end.

(** ** hash *)

(** One turn of the do-while body: [hash = hash ^ *key; hash *= FNV_PRIME]. *)
Definition hash_step (hash : Z) (c : ascii) : Z :=
  wrap_long (Z.lxor hash (char_val c) * FNV_PRIME).

(** The do-while loop.  [key] is the array from the current pointer on,
    [off] the offset of that pointer from the start.  The body reads
    [*key] first, and only then the condition reads [*++key]. *)
Fixpoint hash_loop (key : list ascii) (off : nat) (hash : Z) : access Z :=
  match key with
  | [] => OutOfBounds off
  | c :: key' =>
      let hash := hash_step hash c in
      match key' with
      | [] => OutOfBounds (S off)
      | c' :: _ =>
          if is_nul c' then Done hash (S (S off))
          else hash_loop key' (S off) hash
      end
  end.

(** [hash %= TBL_SIZE; return hash < 0 ? -hash : hash].  C's [%]
    truncates towards zero, which is [Z.rem]. *)
Definition hash_fold (hash : Z) : Z :=
  let hash := Z.rem hash TBL_SIZE in
  if hash <? 0 then - hash else hash.

Definition hash (key : list ascii) : access Z :=
  match hash_loop key 0 FNV_OFFSET with
  | Done h n => Done (hash_fold h) n
  | OutOfBounds off => OutOfBounds off
  end.

(** FNV-1a as the algorithm is described, independently of the loop
    above: starting from the offset basis 2166136261, for each byte of
    the name in turn, xor the byte in and multiply by the prime 16777619
    (in [long] arithmetic, the "32/64-bit variant"). *)
Definition fnv1a (name : list ascii) : Z :=
  fold_left (fun h c => wrap_long (Z.lxor h (char_val c) * 16777619))
            name 2166136261.

(** The bucket a name is looked up in, when [hash] stays in bounds. *)
Definition bucket_of (key : list ascii) : option Z := access_value (hash key).

(** ** C strings

    A [string] argument stands for a pointer to its characters followed
    by a terminator; the C library sees the characters before the first
    NUL. *)

Fixpoint strlen (s : string) : nat :=
  match s with
  | EmptyString => 0%nat
  | String c s' => if is_nul c then 0%nat else S (strlen s')
  end.

(** [strncpy (dest, src, n)]: the [n] bytes written to [dest]. *)
Fixpoint strncpy (src : string) (n : nat) : list ascii :=
  match n with
  | O => []
  | S n' =>
      match src with
      | EmptyString => replicate n NUL
      | String c src' =>
          if is_nul c then replicate n NUL else c :: strncpy src' n'
      end
  end.

(** The characters of [s] that [%s] prints and [strcmp] compares. *)
Fixpoint cchars (s : string) : string :=
  match s with
  | EmptyString => EmptyString
  | String c s' => if is_nul c then EmptyString else String c (cchars s')
  end.

(** ** The file table *)

(* typedef struct file { char *filePath; time_t modified; } File;
   [filePath] is the content of the MAX_PATH bytes it points to. *)
Record File : Type := mkFile {
  filePath : list ascii;
  modified : Z
}.

(** Whether the two [malloc] calls of [newNode] would succeed. *)
Record alloc : Type := mkAlloc {
  malloc_node : bool;
  malloc_path : bool
}.

Definition alloc_ok : alloc := mkAlloc true true.

(* static struct node **fileTable; static long fileCount; *)
Record registry : Type := mkRegistry {
  fileTable : option (gmap Z (list File));
  fileCount : Z
}.

(** Statics are zero-initialised at program start. *)
Definition startup : registry := mkRegistry None 0.

Definition difftime (t1 t0 : Z) : Z := t1 - t0.

Definition newNode (path : option string) (mtime : Z) (heap : alloc)
  : option File :=
  if negb (malloc_node heap) then None
  else match path with
       | None => None
       | Some p =>
           if negb (malloc_path heap) then None
           else Some (mkFile (strncpy p MAX_PATH) mtime)
       end.

(** The scan of [fileName]: [copy] walks the array, [name] is the
    current candidate; [None] when the walk leaves the array. *)
Fixpoint fileName_loop (copy name : list ascii) : option (list ascii) :=
  match copy with
  | [] => None
  | c :: copy' =>
      if is_nul c then Some name
      else if Ascii.eqb c SLASH then fileName_loop copy' copy'
      else fileName_loop copy' name
  end.

Definition fileName (path : option (list ascii)) : option (list ascii) :=
  match path with
  | None => Some (cstr "NUll")
  | Some p => fileName_loop p p
  end.

(** The second half of [insertNode]: the walk from [head] that stops at
    the end of the chain or when [next] is an older node, and the splice
    of [n] between [head] and [next]. *)
Fixpoint insertAfter (n head : File) (next : list File) : list File :=
  match next with
  | [] => [head; n]
  | nx :: rest =>
      if difftime (modified n) (modified nx) <=? 0
      then head :: insertAfter n nx rest
      else head :: n :: next
  end.

(** The chain of a bucket after [insertNode] put [n] in it. *)
Definition insertChain (n : File) (chain : list File) : list File :=
  match chain with
  | [] => [n]
  | head :: next =>
      if difftime (modified n) (modified head) >? 0 then n :: chain
      else insertAfter n head next
  end.

(** [insertNode]: [None] is a read outside the path array; otherwise
    the returned [int] and the statics afterwards.  The index is
    computed before the table is tested. *)
Definition insertNode (n : File) (r : registry) : option (Z * registry) :=
  name ← fileName (Some (filePath n));
  index ← bucket_of name;
  match fileTable r with
  | None => Some (1, r)
  | Some tbl =>
      let count := wrap_long (fileCount r + 1) in
      let head := tbl !!! index in
      Some (0, mkRegistry (Some (<[index := insertChain n head]> tbl)) count)
  end.

Definition trackFile (path : option string) (mtime : Z) (heap : alloc)
                     (r : registry) : option (Z * registry) :=
  match newNode path mtime heap with
  | None => Some (1, r)
  | Some n => insertNode n r
  end.

(** [calloc_ok]: whether [calloc] finds the memory. *)
Definition initializeFileTable (calloc_ok : bool) (r : registry)
  : Z * registry :=
  if calloc_ok then (0, mkRegistry (Some ∅) (fileCount r))
  else (1, mkRegistry None (fileCount r)).

Definition getFileCount (r : registry) : Z := fileCount r.

Definition freeFileTable (r : registry) : Z * registry :=
  match fileTable r with
  | None => (1, r)
  | Some _ => (0, mkRegistry None (fileCount r))
  end.

(** ** Output *)

Inductive stream : Type := stdout | stderr.

(** One constructor per format string, with the arguments printed. *)
Inductive message : Type :=
| NoMatchFound                         (* Sorry, no match found! *)
| TableUninitialized                   (* Error: File Table is uninitialized! *)
| ChainHeader (count : Z) (name : list ascii)          (* FILE (x%d): %-64s *)
| ChainEntry (i : Z) (mtime : Z) (path : list ascii)   (* \t%d:\t%-32s%-32s *)
| Newline                              (* putchar *)
| CantAccessFile (name : string)       (* Error: Can't access file %s! -Ignoring- *)
| ScanningDirectory (name : string)    (* \tNote: Scanning directory %s *)
| CouldntBeLogged                      (* Error: File couldn't be logged! -Ignoring- *)
| CantAccessDirectory (name : string)  (* Error: Can't access directory %s! -Ignoring- *)
| PathTooLong (name : string).         (* Error: %s filepath too long! -Ignoring- *)

Definition event : Type := stream * message.

(** An array that holds a NUL: [%s] and [strlen] stop inside it. *)
Definition terminated (mem : list ascii) : bool := existsb is_nul mem.

Section Printing.

(** [ctime] is the C library's and is taken as a parameter: the string
    it returns for a time, [None] when it returns NULL (a time whose
    year it cannot represent). *)
Variable ctime : Z -> option string.

(** One turn of the do-while of [printFileChain].  [None] when the line
    cannot be printed: [strlen] is applied to the NULL that [ctime]
    returned, the write at [strlen (timeString) - 1] falls before an
    empty string, or [%s] finds no NUL in the path array.  The line
    shows the string of [ctime] without its last character; the event
    records the time it was made from. *)
Definition printEntry (i : Z) (n : File) : option event :=
  match ctime (modified n) with
  | None => None
  | Some timeString =>
      if (strlen timeString =? 0)%nat then None
      else if terminated (filePath n)
           then Some (stdout, ChainEntry i (modified n) (filePath n))
           else None
  end.

(** The do-while of [printFileChain], [i] counting from 1. *)
Fixpoint printEntries (i : Z) (chain : list File) : option (list event) :=
  match chain with
  | [] => Some []
  | n :: rest =>
      line ← printEntry i n;
      lines ← printEntries (i + 1) rest;
      Some (line :: lines)
  end.

Definition printFileChain (chain : list File) : option (list event) :=
  match chain with
  | [] => Some []
  | n :: next =>
      let count := 1 + Z.of_nat (length next) in
      name ← fileName (Some (filePath n));
      lines ← printEntries 1 chain;
      Some ((stdout, ChainHeader count name) :: lines
              ++ [(stdout, Newline)])
  end.

(** [findFile]: what it prints, or [None] when [hash] leaves [key] or
    the chain cannot be printed. *)
Definition findFile (key : list ascii) (r : registry) : option (list event) :=
  match fileTable r with
  | None => Some [(stderr, TableUninitialized)]
  | Some tbl =>
      index ← bucket_of key;
      match tbl !!! index with
      | [] => Some [(stdout, NoMatchFound)]
      | chain => printFileChain chain
      end
  end.

End Printing.

(** ** The file system, as the traversal sees it

    What [stat] answers for a path, and for a directory what [opendir]
    answers and the entries [readdir] then returns in stream order, each
    with what the path built for it resolves to.  The tree is finite:
    the walk of a cyclic link structure does not end and is not
    modelled. *)

Inductive fsnode : Type :=
| NoAccess                                 (* stat returns -1 *)
| Regular (st_mtime : Z)                   (* not S_IFDIR *)
| Directory (dir : option (list dirent))   (* S_IFDIR; opendir *)
with dirent : Type :=
| mkDirent (ino : Z) (name : string) (node : fsnode).

Definition d_ino (e : dirent) : Z := let '(mkDirent i _ _) := e in i.
Definition d_name (e : dirent) : string := let '(mkDirent _ s _) := e in s.
Definition d_node (e : dirent) : fsnode := let '(mkDirent _ _ n) := e in n.

(** The statics of the tracker, the answers of [malloc] to the calls of
    [trackFile] still to come (all succeed once the list runs out), and
    what was printed so far, oldest first. *)
Record world : Type := mkWorld {
  reg : registry;
  heap : list alloc;
  out : list event
}.

Definition print (s : stream) (m : message) (w : world) : world :=
  mkWorld (reg w) (heap w) (out w ++ [(s, m)]).

Definition next_alloc (w : world) : alloc * list alloc :=
  match heap w with
  | [] => (alloc_ok, [])
  | a :: rest => (a, rest)
  end.

(** The C string held in a character array. *)
Fixpoint string_at (mem : list ascii) : string :=
  match mem with
  | [] => EmptyString
  | c :: mem' => if is_nul c then EmptyString else String c (string_at mem')
  end.

(** [readDirectoryEntry] fills [entry.fileName], an array of
    NAME_MAX + 1 bytes, with [strncpy] and a closing NUL. *)
Definition entryName (name : string) : string :=
  string_at (strncpy name NAME_MAX ++ [NUL]).

(** [strcmp (a, b) == 0] *)
Definition streq (a b : string) : bool := String.eqb (cchars a) (cchars b).

(** [sprintf (pathName, "%s/%s", directoryName, fileName)] *)
Definition pathName (directoryName name : string) : string :=
  (cchars directoryName ++ "/" ++ cchars name)%string.

(** The while loop of [scanDirectory] over the stream of the directory.
    [readDirectoryEntry] passes over the entries of inode 0 and copies
    the name of the others; the loop applies [f] to the path of every
    entry it keeps, and [f] receives, with the path, what the path
    resolves to. *)
Definition scanEntries (directoryName : string)
    (f : string -> fsnode -> world -> option world)
  : list dirent -> world -> option world :=
  fix loop (entries : list dirent) (w : world) : option world :=
    match entries with
    | [] => Some w
    | e :: rest =>
        if d_ino e =? 0 then loop rest w
        else
          let name := entryName (d_name e) in
          if streq name "." || streq name ".." then loop rest w
          else if (MAX_PATH <? strlen directoryName + strlen name + 2)%nat
          then loop rest (print stderr (PathTooLong name) w)
          else w' ← f (pathName directoryName name) (d_node e) w;
               loop rest w'
    end.

Definition scanDirectory (directoryName : string)
    (dir : option (list dirent))
    (f : string -> fsnode -> world -> option world)
    (w : world) : option world :=
  match dir with
  | None => Some (print stderr (CantAccessDirectory directoryName) w)
  | Some entries => scanEntries directoryName f entries w
  end.

Fixpoint scanFile (path : string) (node : fsnode) (w : world)
  : option world :=
  match node with
  | NoAccess => Some (print stderr (CantAccessFile path) w)
  | Directory dir =>
      scanDirectory path dir scanFile
                    (print stdout (ScanningDirectory path) w)
  | Regular mtime =>
      let '(a, later) := next_alloc w in
      '(rc, r) ← trackFile (Some path) mtime a (reg w);
      let w' := mkWorld r later (out w) in
      Some (if rc =? 0 then w' else print stderr CouldntBeLogged w')
  end.

(** ** Notions the properties are stated with *)

(** A name as the C library accepts it: no NUL among its characters. *)
Definition nul_free (name : list ascii) : Prop := Forall (fun c => c <> NUL) name.

(** The chain of bucket [i]; a table that is not allocated has none. *)
Definition bucket (r : registry) (i : Z) : list File :=
  match fileTable r with
  | None => []
  | Some tbl => tbl !!! i
  end.

(** The index [insertNode] computes for a node. *)
Definition node_bucket (n : File) : option Z :=
  name ← fileName (Some (filePath n)); bucket_of name.

(** The record [newNode] builds for a path, and the bucket it goes to. *)
Definition record_of (path : string) (mtime : Z) : File :=
  mkFile (strncpy path MAX_PATH) mtime.

Definition path_bucket (path : string) : option Z :=
  node_bucket (record_of path 0).

(** Newest first: every record is at least as recent as all that follow. *)
Definition newest_first (chain : list File) : Prop :=
  StronglySorted (fun a b => modified b <= modified a) chain.

(** [x] occurs in the chain, and [y] further from the head. *)
Definition before (x y : File) (chain : list File) : Prop :=
  exists l1 l2 l3, chain = l1 ++ x :: l2 ++ y :: l3.

(** The place the ordering rule asks for: directly before the first
    record that is strictly older than [n]. *)
Fixpoint place (n : File) (chain : list File) : list File :=
  match chain with
  | [] => [n]
  | e :: rest =>
      if modified e <? modified n then n :: chain else e :: place n rest
  end.

(** A call of [trackFile] with its arguments and the allocator's answer. *)
Record registration : Type := mkRegistration {
  reg_path : option string;
  reg_mtime : Z;
  reg_alloc : alloc
}.

(** A sequence of calls: the values returned, and the statics at the end. *)
Fixpoint trackFiles (calls : list registration) (r : registry)
  : option (list Z * registry) :=
  match calls with
  | [] => Some ([], r)
  | c :: rest =>
      '(rc, r1) ← trackFile (reg_path c) (reg_mtime c) (reg_alloc c) r;
      '(rcs, r2) ← trackFiles rest r1;
      Some (rc :: rcs, r2)
  end.

(** The registry right after a successful [initializeFileTable] at
    program start. *)
Definition fresh : registry := snd (initializeFileTable true startup).

(** Every chain newest first: an invariant of [trackFile]. *)
Definition all_newest_first (r : registry) : Prop :=
  forall i, newest_first (bucket r i).

(** The calls that return 0. *)
Definition successes (rcs : list Z) : nat :=
  length (filter (fun rc => rc = 0) rcs).

(** The entries [scanDirectory] builds a path for: those
    [readDirectoryEntry] returns (inode not 0) other than self and
    parent. *)
Definition kept (e : dirent) : bool :=
  negb (d_ino e =? 0)
  && negb (streq (entryName (d_name e)) "." || streq (entryName (d_name e)) "..").

(** The path [scanDirectory] builds for an entry. *)
Definition entryPath (directoryName : string) (e : dirent) : string :=
  pathName directoryName (entryName (d_name e)).

Definition readable (e : dirent) : bool :=
  match d_node e with Regular _ => true | _ => false end.

Definition inaccessible (e : dirent) : bool :=
  match d_node e with NoAccess => true | _ => false end.

(** What went to the error stream. *)
Definition is_error (ev : event) : bool :=
  match fst ev with stderr => true | stdout => false end.

Definition errors (w : world) : list message :=
  map snd (List.filter is_error (out w)).

(** An entry of a flat directory: kept, with a path that leaves a byte
    to spare in the path array, and either a file [stat] can read or
    one it cannot. *)
Definition flat_entry (directoryName : string) (e : dirent) : Prop :=
  kept e = true
  /\ (strlen (entryPath directoryName e) + 1 < MAX_PATH)%nat
  /\ readable e || inaccessible e = true.

(** A directory name of 4090 characters. *)
Definition long_directory : string :=
  string_of_list_ascii (replicate 4090 "a"%char).

(** ** printFileTable *)

(** The loop [for (i = 0; i < TBL_SIZE; i++) printFileChain (fileTable[i])]
    over the indices still to visit. *)
Fixpoint printBuckets (ctime : Z -> option string)
         (tbl : gmap Z (list File)) (indices : list Z)
  : option (list event) :=
  match indices with
  | [] => Some []
  | i :: rest =>
      printed ← printFileChain ctime (tbl !!! i);
      later ← printBuckets ctime tbl rest;
      Some (printed ++ later)
  end.

(** What [printFileTable] writes on the standard output: the line
    [FileTable is NULL!], or the chains. *)
Inductive table_report : Type :=
| FileTableIsNull
| Chains (printed : list event).

Definition printFileTable (ctime : Z -> option string) (r : registry)
  : option table_report :=
  match fileTable r with
  | None => Some FileTableIsNull
  | Some tbl => Chains <$> printBuckets ctime tbl (seqZ 0 TBL_SIZE)
  end.

(** The entry lines of a chain, numbered from [i], when all of them can
    be printed. *)
Fixpoint entryLines (i : Z) (chain : list File) : list event :=
  match chain with
  | [] => []
  | n :: rest =>
      (stdout, ChainEntry i (modified n) (filePath n))
        :: entryLines (i + 1) rest
  end.

(** [ctime] returns a string for [t], and not an empty one. *)
Definition formats (ctime : Z -> option string) (t : Z) : Prop :=
  exists timeString, ctime t = Some timeString /\ strlen timeString <> 0%nat.

(** A record whose line [printFileChain] can print. *)
Definition printable (ctime : Z -> option string) (n : File) : Prop :=
  formats ctime (modified n) /\ terminated (filePath n) = true.

(** The line of a record cannot be printed: [ctime] returns NULL or an
    empty string for its time, or its path array holds no NUL. *)
Definition unprintable (ctime : Z -> option string) (n : File) : Prop :=
  ctime (modified n) = None
  \/ (exists timeString,
         ctime (modified n) = Some timeString /\ strlen timeString = 0%nat)
  \/ terminated (filePath n) = false.

(** A [ctime] for the examples: it knows the times up to the year 9999
    and gives them all the same 25 characters. *)
Definition sample_ctime (t : Z) : option string :=
  if (0 <=? t) && (t <? 253402300800)
  then Some (String.append "Thu Jan  1 00:00:00 1970"
                           (String (ascii_of_nat 10) EmptyString))
  else None.

(** The number of records in the TBL_SIZE buckets of the table. *)
Definition stored (r : registry) : nat :=
  sum_list (map (fun i => length (bucket r i)) (seqZ 0 TBL_SIZE)).

(** The entry lines among what was printed. *)
Definition is_entry (ev : event) : bool :=
  match snd ev with ChainEntry _ _ _ => true | _ => false end.

(** ** freeNode, on a heap of blocks

    The blocks [malloc] returned and [free] has not yet released, by
    address.  A node block holds the address of its path array, its
    time and the address of the next node. *)

Inductive block : Type :=
| NodeBlock (path : option positive) (mtime : Z) (next : option positive)
| PathBlock (bytes : list ascii).

(** [free (p)]; [free (NULL)] does nothing. *)
Definition free (p : option positive) (m : gmap positive block)
  : gmap positive block :=
  match p with
  | None => m
  | Some a => delete a m
  end.

(** [freeNode]: [None] when [n] is not the address of a live node. *)
Definition freeNode (n : option positive) (m : gmap positive block)
  : option (gmap positive block) :=
  match n with
  | None => Some m
  | Some a =>
      match m !! a with
      | Some (NodeBlock path _ next) =>
          Some (free (Some a) (free path (free next m)))
      | _ => None
      end
  end.

(** The chain that starts at [n] holds the records [files]; [blocks] are
    the addresses it occupies: node, path array, node, path array, ... *)
Inductive chain_at (m : gmap positive block)
  : option positive -> list File -> list positive -> Prop :=
| chain_at_nil : chain_at m None [] []
| chain_at_cons (a p : positive) (next : option positive)
                (f : File) (files : list File) (blocks : list positive) :
    m !! a = Some (NodeBlock (Some p) (modified f) next) ->
    m !! p = Some (PathBlock (filePath f)) ->
    chain_at m next files blocks ->
    chain_at m (Some a) (f :: files) (a :: p :: blocks).

(** A chain of three nodes, as three registrations into one bucket
    leave it. *)
Definition three_nodes : gmap positive block :=
  <[1%positive := NodeBlock (Some 2%positive) 300 (Some 3%positive)]>
    (<[2%positive := PathBlock (strncpy "/d/c" MAX_PATH)]>
       (<[3%positive := NodeBlock (Some 4%positive) 200 (Some 5%positive)]>
          (<[4%positive := PathBlock (strncpy "/d/b" MAX_PATH)]>
             (<[5%positive := NodeBlock (Some 6%positive) 100 None]>
                (<[6%positive := PathBlock (strncpy "/d/a" MAX_PATH)]> ∅))))).

(** ** Names in a directory tree *)

Definition slash_free (name : list ascii) : Prop :=
  Forall (fun c => c <> SLASH) name.

(** A name as a directory holds it: not empty, no separator in it. *)
Definition plain_name (name : string) : Prop :=
  strlen name <> 0%nat /\ slash_free (list_ascii_of_string (cchars name)).

(** Every entry of every directory of the tree has a plain name. *)
Fixpoint plain_names (node : fsnode) : Prop :=
  match node with
  | Directory (Some entries) =>
      (fix all (es : list dirent) : Prop :=
         match es with
         | [] => True
         | mkDirent _ name child :: es' =>
             plain_name (entryName name) /\ plain_names child /\ all es'
         end) entries
  | _ => True
  end.

(** The same for the entries of one directory. *)
Definition plain_entries (entries : list dirent) : Prop :=
  plain_names (Directory (Some entries)).

(** [f], made to fail on a path that does not fit the path array. *)
Definition only_fitting (f : string -> fsnode -> world -> option world)
  : string -> fsnode -> world -> option world :=
  fun path node w =>
    if (strlen path <? MAX_PATH)%nat then f path node w else None.

(** ** Invariants of the table *)

(** Every record sits in the bucket [insertNode] computes for it, and
    that bucket is one of the TBL_SIZE of the table. *)
Definition in_own_bucket (r : registry) : Prop :=
  forall i n, In n (bucket r i) ->
              node_bucket n = Some i /\ 0 <= i < TBL_SIZE.

(** The count runs ahead of the number of records stored by [c], the
    count when the table was initialised; all as a [long]. *)
Definition counted_from (c : Z) (r : registry) : Prop :=
  fileCount r = wrap_long (c + Z.of_nat (stored r)).

(** The registry right after a successful [initializeFileTable] in the
    state [r0]. *)
Definition initialised (r0 : registry) : registry :=
  snd (initializeFileTable true r0).

Definition INT_MAX : Z := 2 ^ 31 - 1.

(** The regular files a traversal from [path] reaches: those behind
    entries that are kept and whose path fits the path array. *)
Fixpoint reachable_files (path : string) (node : fsnode) : nat :=
  match node with
  | NoAccess => 0
  | Regular _ => 1
  | Directory None => 0
  | Directory (Some entries) =>
      (fix count (es : list dirent) : nat :=
         match es with
         | [] => 0
         | mkDirent ino name child :: es' =>
             (if kept (mkDirent ino name child)
                 && (strlen (pathName path (entryName name)) <? MAX_PATH)%nat
              then reachable_files (pathName path (entryName name)) child
              else 0)
             + count es'
         end) entries
  end%nat.

(** A directory of two readable files and one inaccessible entry. *)
Definition two_files_one_locked : list dirent :=
  [mkDirent 11 "a.txt" (Regular 100);
   mkDirent 12 "locked" NoAccess;
   mkDirent 13 "b.txt" (Regular 200)].

(** * Properties *)

(** ** hash *)

Lemma is_nul_false (c : ascii) : c <> NUL -> is_nul c = false.
Proof. intros H. unfold is_nul. now apply Ascii.eqb_neq. Qed.

Lemma fnv1a_fold (name : list ascii) :
  fnv1a name = fold_left hash_step name FNV_OFFSET.
Proof. reflexivity. Qed.

(** On a non-empty name followed by its terminator, the loop folds
    [hash_step] over the name and stops on the terminator, whatever the
    array holds after it. *)
Lemma hash_loop_name (name rest : list ascii) (off : nat) (h : Z) :
  name <> [] -> nul_free name ->
  hash_loop (name ++ NUL :: rest) off h
  = Done (fold_left hash_step name h) (off + length name + 1).
Proof.
  revert off h.
  induction name as [|c name IH]; intros off h Hne Hnf; [congruence|].
  inversion Hnf as [|? ? Hc Hnf']; subst.
  destruct name as [|c' name'].
  - cbn. f_equal. lia.
  - inversion Hnf' as [|? ? Hc' _]; subst.
    change (hash_loop ((c :: c' :: name') ++ NUL :: rest) off h)
      with (if is_nul c' then Done (hash_step h c) (S (S off))
            else hash_loop ((c' :: name') ++ NUL :: rest) (S off) (hash_step h c)).
    rewrite (is_nul_false c' Hc').
    rewrite IH by (congruence || assumption).
    cbn [fold_left length]. f_equal. lia.
Qed.

Lemma hash_fold_abs (h : Z) : hash_fold h = Z.abs (Z.rem h TBL_SIZE).
Proof.
  unfold hash_fold. destruct (Z.ltb_spec (Z.rem h TBL_SIZE) 0); lia.
Qed.

Lemma hash_fold_range (h : Z) : 0 <= hash_fold h < TBL_SIZE.
Proof.
  rewrite hash_fold_abs.
  pose proof (Z.rem_bound_abs h TBL_SIZE) as Hb.
  unfold TBL_SIZE in *. lia.
Qed.

Lemma hash_name (name rest : list ascii) :
  name <> [] -> nul_free name ->
  hash (name ++ NUL :: rest)
  = Done (hash_fold (fnv1a name)) (length name + 1).
Proof.
  intros Hne Hnf. unfold hash.
  rewrite hash_loop_name by assumption. now rewrite fnv1a_fold.
Qed.

(** Whatever [hash] returns lies in the table. *)
Lemma bucket_of_range (key : list ascii) (i : Z) :
  bucket_of key = Some i -> 0 <= i < TBL_SIZE.
Proof.
  unfold bucket_of, hash.
  destruct (hash_loop key 0 FNV_OFFSET); cbn; [|discriminate].
  intros [= <-]. apply hash_fold_range.
Qed.

(** C4. For every non-empty NUL-terminated name, [hash] returns a value
    that is a function of the characters of the name alone (the same
    name gives the same value, whatever follows its terminator in
    memory), that lies in [0, TBL_SIZE) with TBL_SIZE = 512000, and that
    is the absolute value of the remainder of the FNV-1a value of the
    name by the table size. *)
Theorem hash_deterministic_in_range (name : list ascii) :
  name <> [] -> nul_free name ->
  exists h : Z,
    (forall rest, access_value (hash (name ++ NUL :: rest)) = Some h)
    /\ 0 <= h < 512000
    /\ TBL_SIZE = 512000
    /\ h = Z.abs (Z.rem (fnv1a name) TBL_SIZE).
Proof.
  intros Hne Hnf. exists (hash_fold (fnv1a name)).
  split; [|split; [|split]].
  - intros rest. now rewrite hash_name.
  - apply hash_fold_range.
  - reflexivity.
  - apply hash_fold_abs.
Qed.

Lemma hash_deterministic_in_range_witness :
  exists h : Z,
    (forall rest,
        access_value (hash (list_ascii_of_string "a.txt" ++ NUL :: rest))
        = Some h)
    /\ 0 <= h < 512000
    /\ TBL_SIZE = 512000
    /\ h = Z.abs (Z.rem (fnv1a (list_ascii_of_string "a.txt")) TBL_SIZE).
Proof.
  apply (hash_deterministic_in_range (list_ascii_of_string "a.txt")).
  - discriminate.
  - repeat constructor; discriminate.
Defined.

(** Every run of the loop started at offset [off] reads further than
    [off]. *)
Lemma hash_loop_reads (key : list ascii) (off : nat) (h : Z) :
  (off < access_reads (hash_loop key off h))%nat.
Proof.
  revert off h. induction key as [|c key IH]; intros off h; cbn; [lia|].
  destruct key as [|c' key']; [cbn; lia|].
  destruct (is_nul c'); [cbn; lia|].
  specialize (IH (S off) (hash_step h c)). lia.
Qed.

Lemma hash_reads_two (c : ascii) (rest : list ascii) :
  (2 <= access_reads (hash (c :: rest)))%nat.
Proof.
  unfold hash. cbn [hash_loop].
  destruct rest as [|c' rest']; [cbn; lia|].
  destruct (is_nul c'); [cbn; lia|].
  pose proof (hash_loop_reads (c' :: rest') 1 (hash_step FNV_OFFSET c)) as H.
  destruct (hash_loop (c' :: rest') 1 (hash_step FNV_OFFSET c)); cbn in *; lia.
Qed.

(** C10. The do-while body reads the first byte of the key before any
    test of the terminator.  On a non-empty NUL-terminated name the
    reads are exactly the characters and the terminator, all inside the
    string.  On the empty string the byte hashed is the terminator
    itself and the loop test then reads offset 1, one byte past the end
    of the string: outside the array when the array is the string, and
    in any case a second byte although the string has only one. *)
Theorem hash_reads_before_testing :
  (forall name rest, name <> [] -> nul_free name ->
     exists h, hash (name ++ NUL :: rest) = Done h (length (name ++ [NUL])))
  /\ hash (cstr "") = OutOfBounds 1
  /\ length (cstr "") = 1%nat
  /\ (forall rest, (2 <= access_reads (hash (NUL :: rest)))%nat)
  /\ (forall c rest,
        hash (c :: NUL :: rest) = Done (hash_fold (hash_step FNV_OFFSET c)) 2).
Proof.
  split; [|split; [|split; [|split]]].
  - intros name rest Hne Hnf. eexists. rewrite hash_name by assumption.
    f_equal. rewrite length_app. reflexivity.
  - reflexivity.
  - reflexivity.
  - intros rest. apply (hash_reads_two NUL rest).
  - intros c rest. reflexivity.
Qed.

Lemma hash_reads_before_testing_witness :
  exists h,
    hash (list_ascii_of_string "a" ++ NUL :: []) 
    = Done h (length (list_ascii_of_string "a" ++ [NUL])).
Proof.
  apply (proj1 hash_reads_before_testing (list_ascii_of_string "a") []).
  - discriminate.
  - repeat constructor; discriminate.
Defined.

(** ** The order of a chain *)

Lemma insertAfter_place (n head : File) (next : list File) :
  insertAfter n head next = head :: place n next.
Proof.
  revert head. induction next as [|nx rest IH]; intros head; cbn; [reflexivity|].
  unfold difftime.
  destruct (Z.leb_spec (modified n - modified nx) 0),
           (Z.ltb_spec (modified nx) (modified n)); try lia.
  - now rewrite IH.
  - reflexivity.
Qed.

(** [insertNode] puts the node directly before the first strictly
    older record of the chain. *)
Lemma insertChain_place (n : File) (chain : list File) :
  insertChain n chain = place n chain.
Proof.
  destruct chain as [|head next]; cbn; [reflexivity|].
  unfold difftime.
  destruct (Z.gtb_spec (modified n - modified head) 0),
           (Z.ltb_spec (modified head) (modified n)); try lia.
  - reflexivity.
  - apply insertAfter_place.
Qed.

(** The records before the new one are not older than it, the record
    right after it (if any) is strictly older. *)
Lemma place_split (n : File) (chain : list File) :
  exists l1 l2,
    chain = l1 ++ l2 /\ place n chain = l1 ++ n :: l2
    /\ Forall (fun e => modified n <= modified e) l1
    /\ match l2 with [] => True | e :: _ => modified e < modified n end.
Proof.
  induction chain as [|e rest IH]; cbn.
  - exists [], []. repeat split; constructor.
  - destruct (Z.ltb_spec (modified e) (modified n)).
    + exists [], (e :: rest). repeat split; [constructor|assumption].
    + destruct IH as (l1 & l2 & -> & -> & Hl1 & Hl2).
      exists (e :: l1), l2. repeat split; [constructor; assumption|assumption].
Qed.

Lemma newest_first_app (l1 l2 : list File) :
  newest_first (l1 ++ l2) <->
  newest_first l1 /\ newest_first l2
  /\ Forall (fun a => Forall (fun b => modified b <= modified a) l2) l1.
Proof.
  unfold newest_first. induction l1 as [|a l1 IH]; cbn.
  - split; [intros H; repeat split; [constructor|assumption|constructor]|tauto].
  - split.
    + intros H. apply StronglySorted_inv in H as [Hs Hall].
      apply IH in Hs as (H1 & H2 & H12).
      apply Forall_app in Hall as [Ha1 Ha2].
      repeat split; [constructor|idtac|constructor]; assumption.
    + intros (H1 & H2 & H12).
      apply StronglySorted_inv in H1 as [Hs Hall].
      apply Forall_cons in H12 as [Ha2 H12].
      constructor; [apply IH; tauto|apply Forall_app; tauto].
Qed.

Lemma place_newest_first (n : File) (chain : list File) :
  newest_first chain -> newest_first (place n chain).
Proof.
  intros Hs.
  destruct (place_split n chain) as (l1 & l2 & -> & -> & Hl1 & Hl2).
  apply newest_first_app in Hs as (H1 & H2 & H12).
  assert (Hn2 : Forall (fun b => modified b <= modified n) l2).
  { destruct l2 as [|e l2]; [constructor|].
    apply StronglySorted_inv in H2 as [_ Hall].
    constructor; [lia|]. eapply Forall_impl; [exact Hall|]. cbn. intros; lia. }
  apply newest_first_app. repeat split.
  - assumption.
  - constructor; assumption.
  - assert (Hboth := conj Hl1 H12). apply Forall_and in Hboth.
    eapply Forall_impl; [exact Hboth|].
    cbn. intros a [Hna Ha2]. now constructor.
Qed.

(** In a chain that is newest first, the new record goes behind every
    record that is not older and ahead of every record that is. *)
Lemma place_split_sorted (n : File) (chain : list File) :
  newest_first chain ->
  exists l1 l2,
    chain = l1 ++ l2 /\ place n chain = l1 ++ n :: l2
    /\ Forall (fun e => modified n <= modified e) l1
    /\ Forall (fun e => modified e < modified n) l2.
Proof.
  intros Hs.
  destruct (place_split n chain) as (l1 & l2 & -> & Hp & Hl1 & Hl2).
  exists l1, l2. repeat split; try assumption.
  apply newest_first_app in Hs as (_ & H2 & _).
  destruct l2 as [|e l2]; [constructor|].
  apply StronglySorted_inv in H2 as [_ Hall].
  constructor; [assumption|].
  eapply Forall_impl; [exact Hall|]. cbn. intros; lia.
Qed.

Lemma place_elem (n : File) (chain : list File) :
  exists l1 l2, place n chain = l1 ++ n :: l2.
Proof.
  destruct (place_split n chain) as (l1 & l2 & _ & H & _). eauto.
Qed.

Lemma before_cons (c x y : File) (chain : list File) :
  before x y chain -> before x y (c :: chain).
Proof.
  intros (l1 & l2 & l3 & ->). now exists (c :: l1), l2, l3.
Qed.

(** The older record first, then the newer one. *)
Lemma place_older_then_newer (a b : File) (chain : list File) :
  modified a < modified b -> before b a (place b (place a chain)).
Proof.
  intros Hlt. induction chain as [|e rest IH]; cbn.
  - destruct (Z.ltb_spec (modified a) (modified b)); [|lia].
    now exists [], [], [].
  - destruct (Z.ltb_spec (modified e) (modified a)); cbn.
    + destruct (Z.ltb_spec (modified a) (modified b)); [|lia].
      now exists [], [], (e :: rest).
    + destruct (Z.ltb_spec (modified e) (modified b)).
      * destruct (place_elem a rest) as (l1 & l2 & ->).
        now exists [], (e :: l1), l2.
      * now apply before_cons.
Qed.

(** The newer record first, then the older one. *)
Lemma place_newer_then_older (a b : File) (chain : list File) :
  modified a < modified b -> before b a (place a (place b chain)).
Proof.
  intros Hlt. induction chain as [|e rest IH]; cbn.
  - destruct (Z.ltb_spec (modified b) (modified a)); [lia|].
    now exists [], [], [].
  - destruct (Z.ltb_spec (modified e) (modified b)); cbn.
    + destruct (Z.ltb_spec (modified b) (modified a)); [lia|].
      destruct (place_elem a (e :: rest)) as (l1 & l2 & E).
      cbn in E. rewrite E. now exists [], l1, l2.
    + destruct (Z.ltb_spec (modified e) (modified a)); [lia|].
      now apply before_cons.
Qed.

(** ** The registry *)

Lemma trackFile_alloc_ok (path : string) (mtime : Z) (r : registry) :
  trackFile (Some path) mtime alloc_ok r = insertNode (record_of path mtime) r.
Proof. reflexivity. Qed.

(** On an allocated table [insertNode] succeeds as soon as the index is
    computed: the count is incremented and the node placed in its chain. *)
Lemma insertNode_allocated (n : File) (r : registry)
      (tbl : gmap Z (list File)) (i : Z) :
  fileTable r = Some tbl -> node_bucket n = Some i ->
  insertNode n r
  = Some (0, mkRegistry (Some (<[i := place n (tbl !!! i)]> tbl))
                        (wrap_long (fileCount r + 1))).
Proof.
  unfold node_bucket, insertNode. intros Ht Hi.
  destruct (fileName (Some (filePath n))) as [name|]; cbn in *; [|discriminate].
  rewrite Hi. cbn. rewrite Ht. now rewrite insertChain_place.
Qed.

(** Without a table [insertNode] returns 1 and changes nothing. *)
Lemma insertNode_unallocated (n : File) (r : registry) (i : Z) :
  fileTable r = None -> node_bucket n = Some i -> insertNode n r = Some (1, r).
Proof.
  unfold node_bucket, insertNode. intros Ht Hi.
  destruct (fileName (Some (filePath n))) as [name|]; cbn in *; [|discriminate].
  rewrite Hi. cbn. now rewrite Ht.
Qed.

(** The cases of one call of [trackFile] that returns. *)
Lemma trackFile_cases (path : option string) (mtime : Z) (heap : alloc)
      (r : registry) (rc : Z) (r' : registry) :
  trackFile path mtime heap r = Some (rc, r') ->
  (rc = 1 /\ r' = r)
  \/ (exists tbl n i,
        rc = 0 /\ fileTable r = Some tbl /\ node_bucket n = Some i
        /\ newNode path mtime heap = Some n
        /\ r' = mkRegistry (Some (<[i := place n (tbl !!! i)]> tbl))
                           (wrap_long (fileCount r + 1))).
Proof.
  unfold trackFile.
  destruct (newNode path mtime heap) as [n|] eqn:En.
  - intros H.
    destruct (node_bucket n) as [i|] eqn:Ei.
    + destruct (fileTable r) as [tbl|] eqn:Et.
      * rewrite (insertNode_allocated n r tbl i Et Ei) in H.
        injection H as <- <-. right. exists tbl, n, i. tauto.
      * rewrite (insertNode_unallocated n r i Et Ei) in H.
        injection H as <- <-. now left.
    + exfalso. revert H Ei. unfold insertNode, node_bucket.
      destruct (fileName (Some (filePath n))) as [name|]; cbn; [|discriminate].
      destruct (bucket_of name); cbn; discriminate.
  - intros [= <- <-]. now left.
Qed.

Lemma bucket_insert_eq (tbl : gmap Z (list File)) (i : Z)
      (chain : list File) (c : Z) :
  bucket (mkRegistry (Some (<[i := chain]> tbl)) c) i = chain.
Proof. unfold bucket. cbn. apply lookup_total_insert_eq. Qed.

Lemma bucket_insert_ne (tbl : gmap Z (list File)) (i j : Z)
      (chain : list File) (c : Z) :
  i <> j ->
  bucket (mkRegistry (Some (<[i := chain]> tbl)) c) j = tbl !!! j.
Proof. intros Hne. unfold bucket. cbn. now apply lookup_total_insert_ne. Qed.

Lemma bucket_fresh (i : Z) : bucket fresh i = [].
Proof. unfold bucket, fresh. cbn. now rewrite lookup_total_empty. Qed.

Lemma trackFile_newest_first (path : option string) (mtime : Z)
      (heap : alloc) (r : registry) (rc : Z) (r' : registry) :
  all_newest_first r ->
  trackFile path mtime heap r = Some (rc, r') ->
  all_newest_first r'.
Proof.
  intros Hinv H.
  apply trackFile_cases in H as [[_ ->]|(tbl & n & i & _ & Et & _ & _ & ->)];
    [assumption|].
  intros j. destruct (decide (i = j)) as [<-|Hne].
  - rewrite bucket_insert_eq. apply place_newest_first.
    specialize (Hinv i). unfold bucket in Hinv. now rewrite Et in Hinv.
  - rewrite bucket_insert_ne by assumption.
    specialize (Hinv j). unfold bucket in Hinv. now rewrite Et in Hinv.
Qed.

(** One call of a sequence: name the outcome of the call and of the
    calls after it, and drop the cases where one of them does not return. *)
Ltac step_trackFiles r rc r1 rcs r2 E1 E2 :=
  cbn [trackFiles];
  destruct (trackFile _ _ _ r) as [[rc r1]|] eqn:E1; cbn; [|discriminate];
  destruct (trackFiles _ r1) as [[rcs r2]|] eqn:E2; cbn; [|discriminate].

Lemma trackFiles_newest_first (calls : list registration) (r : registry)
      (rcs : list Z) (r' : registry) :
  all_newest_first r ->
  trackFiles calls r = Some (rcs, r') ->
  all_newest_first r'.
Proof.
  revert r rcs. induction calls as [|c calls IH]; intros r rcs Hinv; cbn.
  - now intros [= _ <-].
  - step_trackFiles r rc r1 rcs' r2 E1 E2.
    intros [= _ <-].
    eapply IH; [|exact E2]. eapply trackFile_newest_first; eassumption.
Qed.

(** Two registrations in a row into bucket [i] of an allocated table. *)
Lemma trackFile_twice (r : registry) (tbl : gmap Z (list File))
      (p1 p2 : string) (t1 t2 : Z) (i : Z) :
  fileTable r = Some tbl ->
  path_bucket p1 = Some i -> path_bucket p2 = Some i ->
  exists r1 r2,
    trackFile (Some p1) t1 alloc_ok r = Some (0, r1)
    /\ trackFile (Some p2) t2 alloc_ok r1 = Some (0, r2)
    /\ bucket r2 i
       = place (record_of p2 t2) (place (record_of p1 t1) (bucket r i)).
Proof.
  intros Et H1 H2. rewrite !trackFile_alloc_ok.
  rewrite (insertNode_allocated (record_of p1 t1) r tbl i Et H1).
  set (tbl1 := <[i := place (record_of p1 t1) (tbl !!! i)]> tbl).
  set (r1 := mkRegistry (Some tbl1) (wrap_long (fileCount r + 1))).
  exists r1. eexists. split; [reflexivity|].
  rewrite trackFile_alloc_ok.
  rewrite (insertNode_allocated (record_of p2 t2) r1 tbl1 i eq_refl H2).
  split; [reflexivity|]. subst tbl1.
  rewrite bucket_insert_eq, lookup_total_insert_eq.
  unfold bucket. now rewrite Et.
Qed.

(** C1. Two registrations into the same bucket with timestamps
    [ta < tb] leave the [tb] record before the [ta] record in the chain,
    in whichever order the two are inserted; and after any sequence of
    register operations on a freshly initialised registry every bucket
    chain is sorted by descending [modified], newest first. *)
Theorem chains_newest_first :
  (forall (r : registry) (tbl : gmap Z (list File))
          (pa pb : string) (ta tb : Z) (i : Z),
      fileTable r = Some tbl ->
      path_bucket pa = Some i -> path_bucket pb = Some i ->
      ta < tb ->
      (exists r1 r2,
          trackFile (Some pa) ta alloc_ok r = Some (0, r1)
          /\ trackFile (Some pb) tb alloc_ok r1 = Some (0, r2)
          /\ before (record_of pb tb) (record_of pa ta) (bucket r2 i))
      /\ (exists r1 r2,
             trackFile (Some pb) tb alloc_ok r = Some (0, r1)
             /\ trackFile (Some pa) ta alloc_ok r1 = Some (0, r2)
             /\ before (record_of pb tb) (record_of pa ta) (bucket r2 i)))
  /\ (forall (calls : list registration) (rcs : list Z) (r : registry),
         trackFiles calls fresh = Some (rcs, r) ->
         forall i, newest_first (bucket r i)).
Proof.
  split.
  - intros r tbl pa pb ta tb i Et Ha Hb Hlt. split.
    + destruct (trackFile_twice r tbl pa pb ta tb i Et Ha Hb)
        as (r1 & r2 & E1 & E2 & Eb).
      exists r1, r2. rewrite Eb. repeat split; try assumption.
      now apply place_older_then_newer.
    + destruct (trackFile_twice r tbl pb pa tb ta i Et Hb Ha)
        as (r1 & r2 & E1 & E2 & Eb).
      exists r1, r2. rewrite Eb. repeat split; try assumption.
      now apply place_newer_then_older.
  - intros calls rcs r H.
    eapply trackFiles_newest_first; [|exact H].
    intros i. rewrite bucket_fresh. constructor.
Qed.

Lemma chains_newest_first_witness :
  ((exists r1 r2,
       trackFile (Some "/d/a.txt"%string) 100 alloc_ok fresh = Some (0, r1)
       /\ trackFile (Some "/d/sub/a.txt"%string) 200 alloc_ok r1 = Some (0, r2)
       /\ before (record_of "/d/sub/a.txt" 200) (record_of "/d/a.txt" 100)
                 (bucket r2 53766))
   /\ (exists r1 r2,
          trackFile (Some "/d/sub/a.txt"%string) 200 alloc_ok fresh = Some (0, r1)
          /\ trackFile (Some "/d/a.txt"%string) 100 alloc_ok r1 = Some (0, r2)
          /\ before (record_of "/d/sub/a.txt" 200) (record_of "/d/a.txt" 100)
                    (bucket r2 53766)))
  /\ (exists rcs r,
         trackFiles [mkRegistration (Some "/d/a.txt"%string) 100 alloc_ok;
                     mkRegistration (Some "/d/sub/a.txt"%string) 200 alloc_ok]
                    fresh = Some (rcs, r)
         /\ forall i, newest_first (bucket r i)).
Proof.
  split.
  - apply (proj1 chains_newest_first fresh ∅
                 "/d/a.txt"%string "/d/sub/a.txt"%string 100 200 53766).
    + reflexivity.
    + vm_compute. reflexivity.
    + vm_compute. reflexivity.
    + lia.
  - eexists. eexists.
    split; [vm_compute; reflexivity|].
    apply (proj2 chains_newest_first
                 [mkRegistration (Some "/d/a.txt"%string) 100 alloc_ok;
                  mkRegistration (Some "/d/sub/a.txt"%string) 200 alloc_ok]
                 [0; 0]).
    vm_compute. reflexivity.
Defined.

(** ** Equal timestamps *)

Lemma not_before_pair (x y : File) : x <> y -> ~ before y x [x; y].
Proof.
  intros Hne (l1 & l2 & l3 & E).
  destruct l1 as [|a [|b [|c l1]]], l2 as [|d l2]; simplify_eq/=; congruence.
Qed.

(** CEX-C2. Two files of the same name and the same time 100: the file
    registered second ends up behind the one already in the chain, not
    nearer the head. *)
Lemma tie_new_record_not_nearer_head :
  exists r1 r2,
    trackFile (Some "/d/a.txt"%string) 100 alloc_ok fresh = Some (0, r1)
    /\ bucket r1 53766 = [record_of "/d/a.txt" 100]
    /\ trackFile (Some "/e/a.txt"%string) 100 alloc_ok r1 = Some (0, r2)
    /\ bucket r2 53766 = [record_of "/d/a.txt" 100; record_of "/e/a.txt" 100]
    /\ ~ before (record_of "/e/a.txt" 100) (record_of "/d/a.txt" 100)
                (bucket r2 53766).
Proof.
  eexists. eexists.
  split; [vm_compute; reflexivity|].
  split; [vm_compute; reflexivity|].
  split; [vm_compute; reflexivity|].
  split; [vm_compute; reflexivity|].
  match goal with |- ~ before _ _ ?b =>
    replace b with [record_of "/d/a.txt" 100; record_of "/e/a.txt" 100]
      by (vm_compute; reflexivity)
  end.
  apply not_before_pair.
  intros H. apply (f_equal (fun f => nth_error (filePath f) 1)) in H.
  vm_compute in H. discriminate.
Qed.

(** [trackFile] never frees or allocates the table. *)
Lemma trackFile_table (path : option string) (mtime : Z) (heap : alloc)
      (r : registry) (rc : Z) (r' : registry) :
  trackFile path mtime heap r = Some (rc, r') ->
  is_Some (fileTable r) -> is_Some (fileTable r').
Proof.
  intros H Hs.
  apply trackFile_cases in H as [[_ ->]|(tbl & n & i & _ & _ & _ & _ & ->)];
    [assumption|]. cbn. eauto.
Qed.

Lemma trackFiles_table (calls : list registration) (r : registry)
      (rcs : list Z) (r' : registry) :
  trackFiles calls r = Some (rcs, r') ->
  is_Some (fileTable r) -> is_Some (fileTable r').
Proof.
  revert r rcs. induction calls as [|c calls IH]; intros r rcs; cbn.
  - now intros [= _ <-].
  - step_trackFiles r rc r1 rcs' r2 E1 E2.
    intros [= _ <-] Hs.
    eapply IH; [exact E2|]. eapply trackFile_table; eassumption.
Qed.

(** C2, as the code has it. In any registry reached by register
    operations from a freshly initialised one, a new record goes behind
    every record of its chain whose timestamp is equal to (or newer
    than) its own, and directly ahead of the strictly older ones: on a
    tie the more recently inserted record lands nearer the tail. *)
Theorem tie_goes_behind (calls : list registration) (rcs : list Z)
        (r : registry) (path : string) (t : Z) (i : Z) :
  trackFiles calls fresh = Some (rcs, r) ->
  path_bucket path = Some i ->
  exists r' l1 l2,
    trackFile (Some path) t alloc_ok r = Some (0, r')
    /\ bucket r i = l1 ++ l2
    /\ bucket r' i = l1 ++ record_of path t :: l2
    /\ Forall (fun e => t <= modified e) l1
    /\ Forall (fun e => modified e < t) l2
    /\ (forall e, In e (bucket r i) -> modified e = t -> In e l1).
Proof.
  intros Hr Hi.
  assert (Hs : all_newest_first r).
  { eapply trackFiles_newest_first; [|exact Hr].
    intros j. rewrite bucket_fresh. constructor. }
  destruct (trackFiles_table _ _ _ _ Hr) as [tbl Et]; [unfold fresh; cbn; eauto|].
  specialize (Hs i).
  destruct (place_split_sorted (record_of path t) (bucket r i) Hs)
    as (l1 & l2 & E & Ep & Hl1 & Hl2).
  rewrite trackFile_alloc_ok.
  rewrite (insertNode_allocated (record_of path t) r tbl i Et Hi).
  refine (ex_intro _ _ (ex_intro _ l1 (ex_intro _ l2 _))).
  split; [reflexivity|].
  rewrite bucket_insert_eq.
  assert (Eb : bucket r i = tbl !!! i) by (unfold bucket; now rewrite Et).
  rewrite <- Eb, Ep. repeat split; try assumption.
  intros e He Het. rewrite E in He. apply in_app_or in He as [He|He]; [assumption|].
  rewrite Forall_forall in Hl2. apply list_elem_of_In in He.
  specialize (Hl2 e He). cbn in Hl2. lia.
Qed.

Lemma tie_goes_behind_witness :
  exists r' l1 l2,
    trackFile (Some "/e/a.txt"%string) 100 alloc_ok
      (mkRegistry (Some (<[53766 := [record_of "/d/a.txt" 100]]> ∅)) 1)
    = Some (0, r')
    /\ bucket (mkRegistry (Some (<[53766 := [record_of "/d/a.txt" 100]]> ∅)) 1)
              53766 = l1 ++ l2
    /\ bucket r' 53766 = l1 ++ record_of "/e/a.txt" 100 :: l2
    /\ Forall (fun e => 100 <= modified e) l1
    /\ Forall (fun e => modified e < 100) l2
    /\ (forall e,
           In e (bucket
                   (mkRegistry
                      (Some (<[53766 := [record_of "/d/a.txt" 100]]> ∅)) 1)
                   53766) ->
           modified e = 100 -> In e l1).
Proof.
  apply (tie_goes_behind
           [mkRegistration (Some "/d/a.txt"%string) 100 alloc_ok] [0]
           (mkRegistry (Some (<[53766 := [record_of "/d/a.txt" 100]]> ∅)) 1)
           "/e/a.txt"%string 100 53766).
  - vm_compute. reflexivity.
  - vm_compute. reflexivity.
Defined.

(** ** Teardown and a second initialisation *)

(** Neither [freeFileTable] nor [initializeFileTable] touches
    [fileCount]: the table comes back empty, the count as it was. *)
Lemma reinitialize (r : registry) (tbl : gmap Z (list File)) :
  fileTable r = Some tbl ->
  exists r1,
    freeFileTable r = (0, r1)
    /\ initializeFileTable true r1 = (0, mkRegistry (Some ∅) (fileCount r)).
Proof.
  intros Et. unfold freeFileTable. rewrite Et. eexists. split; reflexivity.
Qed.

(** C3, evaluated. One file is registered, the table is torn down and
    initialised again: looking the name up finds nothing, but
    [getFileCount] still answers 1, the number of files of the table
    that was freed, not 0. *)
Theorem count_survives_reinitialize :
  exists r1 r2 r3,
    trackFile (Some "/d/a.txt"%string) 100 alloc_ok fresh = Some (0, r1)
    /\ freeFileTable r1 = (0, r2)
    /\ initializeFileTable true r2 = (0, r3)
    /\ (forall i, bucket r3 i = [])
    /\ (forall ctime,
          findFile ctime (cstr "a.txt") r3 = Some [(stdout, NoMatchFound)])
    /\ getFileCount r3 = 1.
Proof.
  exists (mkRegistry (Some (<[53766 := [record_of "/d/a.txt" 100]]> ∅)) 1),
         (mkRegistry None 1), (mkRegistry (Some ∅) 1).
  split; [vm_compute; reflexivity|].
  split; [reflexivity|].
  split; [reflexivity|].
  split; [intros i; unfold bucket; cbn; now rewrite lookup_total_empty|].
  split; [intros ctime|]; vm_compute; reflexivity.
Qed.

(** ** The count *)

Lemma wrap_long_small (z : Z) : LONG_MIN <= z <= LONG_MAX -> wrap_long z = z.
Proof.
  unfold wrap_long, LONG_MIN, LONG_MAX. intros H.
  rewrite Z.mod_small; lia.
Qed.

(** As long as the [long] does not overflow, the count grows by one for
    every call that returns 0 and by nothing for the others. *)
Lemma trackFiles_count (calls : list registration) (r : registry)
      (rcs : list Z) (r' : registry) :
  trackFiles calls r = Some (rcs, r') ->
  0 <= fileCount r ->
  fileCount r + Z.of_nat (length calls) <= LONG_MAX ->
  length rcs = length calls
  /\ fileCount r' = fileCount r + Z.of_nat (successes rcs).
Proof.
  revert r rcs. induction calls as [|c calls IH]; intros r rcs; cbn [trackFiles].
  - intros [= <- <-] _ _. cbn. split; [reflexivity|lia].
  - step_trackFiles r rc r1 rcs' r2 E1 E2.
    intros [= <- <-] H0 Hmax.
    apply trackFile_cases in E1
      as [[-> ->]|(tbl & n & i & -> & _ & _ & _ & ->)].
    + destruct (IH _ _ E2) as [Hl Hc]; [assumption|lia|].
      split; [cbn; lia|].
      unfold successes in *. rewrite filter_cons_False by lia. exact Hc.
    + cbn [fileCount] in *.
      assert (Ew : wrap_long (fileCount r + 1) = fileCount r + 1)
        by (apply wrap_long_small; unfold LONG_MIN, LONG_MAX in *; lia).
      rewrite Ew in *.
      destruct (IH _ _ E2) as [Hl Hc]; [cbn; lia|cbn; lia|].
      cbn [fileCount] in Hc.
      split; [cbn; lia|].
      unfold successes in *. rewrite filter_cons_True by reflexivity.
      cbn [length]. lia.
Qed.

Lemma successes_all (rcs : list Z) :
  Forall (fun rc => rc = 0) rcs -> successes rcs = length rcs.
Proof.
  unfold successes. induction 1 as [|rc rcs H0 _ IH]; [reflexivity|].
  rewrite filter_cons_True by assumption. cbn. now rewrite IH.
Qed.

(** From the initialisation at program start (the statics still zero),
    after N register operations that all succeeded (returned 0)
    [getFileCount] returns exactly N, for every N a [long] can hold; the
    paths need not even be distinct. *)
Lemma count_after_registrations (calls : list registration)
        (rcs : list Z) (r : registry) :
  trackFiles calls fresh = Some (rcs, r) ->
  Forall (fun rc => rc = 0) rcs ->
  Z.of_nat (length calls) <= LONG_MAX ->
  getFileCount r = Z.of_nat (length calls).
Proof.
  intros Hr Hok Hmax.
  destruct (trackFiles_count calls fresh rcs r Hr) as [Hl Hc];
    [cbn; lia|cbn; lia|].
  unfold getFileCount. rewrite Hc, (successes_all rcs Hok), Hl.
  reflexivity.
Qed.

Lemma count_after_registrations_witness :
  getFileCount
    (mkRegistry
       (Some (<[291613 := [record_of "/d/b.txt" 300]]>
                (<[53766 := [record_of "/d/sub/a.txt" 200;
                             record_of "/d/a.txt" 100]]> ∅)))
       3)
  = Z.of_nat (length [mkRegistration (Some "/d/a.txt"%string) 100 alloc_ok;
                      mkRegistration (Some "/d/sub/a.txt"%string) 200 alloc_ok;
                      mkRegistration (Some "/d/b.txt"%string) 300 alloc_ok]).
Proof.
  apply (count_after_registrations _ [0; 0; 0]).
  - vm_compute. reflexivity.
  - repeat constructor.
  - vm_compute. discriminate.
Defined.

(** C5, evaluated. A registry that is freshly initialised a second
    time, after a teardown, has every bucket empty and yet keeps the old
    count: one file was registered before the teardown, one successful
    registration (N = 1) follows the initialisation, and [getFileCount]
    answers 2, not N. *)
Theorem count_after_second_initialisation :
  exists r1 r2 r3 r4,
    trackFile (Some "/d/a.txt"%string) 100 alloc_ok fresh = Some (0, r1)
    /\ freeFileTable r1 = (0, r2)
    /\ initializeFileTable true r2 = (0, r3)
    /\ (forall i, bucket r3 i = [])
    /\ trackFile (Some "/d/b.txt"%string) 200 alloc_ok r3 = Some (0, r4)
    /\ bucket r4 291613 = [record_of "/d/b.txt" 200]
    /\ getFileCount r4 = 2.
Proof.
  exists (mkRegistry (Some (<[53766 := [record_of "/d/a.txt" 100]]> ∅)) 1),
         (mkRegistry None 1), (mkRegistry (Some ∅) 1),
         (mkRegistry (Some (<[291613 := [record_of "/d/b.txt" 200]]> ∅)) 2).
  split; [vm_compute; reflexivity|].
  split; [reflexivity|].
  split; [reflexivity|].
  split; [intros i; unfold bucket; cbn; now rewrite lookup_total_empty|].
  split; [vm_compute; reflexivity|].
  split; [apply bucket_insert_eq|reflexivity].
Qed.

(** ** Paths that fit their array *)

Lemma cchars_nul_free (s : string) :
  nul_free (list_ascii_of_string (cchars s)).
Proof.
  induction s as [|c s IH]; cbn; [constructor|].
  destruct (is_nul c) eqn:E; cbn; [constructor|].
  constructor; [|exact IH]. now apply Ascii.eqb_neq.
Qed.

(** [strncpy] of a string that fits: its characters, then NUL up to the
    end of the array. *)
Lemma strncpy_fits (s : string) (n : nat) :
  (strlen s <= n)%nat ->
  strncpy s n
  = list_ascii_of_string (cchars s) ++ replicate (n - strlen s) NUL.
Proof.
  revert n. induction s as [|c s IH]; intros n Hn.
  - destruct n; cbn; [reflexivity|]. reflexivity.
  - destruct n as [|n]; cbn in *.
    + destruct (is_nul c); [reflexivity|lia].
    + destruct (is_nul c); cbn; [reflexivity|].
      rewrite IH by lia. reflexivity.
Qed.

(** In an array that ends in [k >= 1] NUL bytes, [fileName] finds the
    terminator and returns a pointer into the same array, still followed
    by the [k] NUL bytes. *)
Lemma fileName_loop_padded (k : nat) (s name : list ascii) :
  (1 <= k)%nat -> nul_free s ->
  (exists t, nul_free t /\ name = t ++ replicate k NUL) ->
  exists t, nul_free t
            /\ fileName_loop (s ++ replicate k NUL) name
               = Some (t ++ replicate k NUL).
Proof.
  intros Hk. revert name. induction s as [|c s IH]; intros name Hs Hname.
  - destruct Hname as (t & Ht & ->). exists t. split; [assumption|].
    destruct k as [|k]; [lia|]. reflexivity.
  - inversion Hs as [|? ? Hc Hs']; subst.
    cbn. rewrite (is_nul_false c Hc).
    destruct (Ascii.eqb c SLASH).
    + apply IH; [assumption|]. exists s. now split.
    + apply IH; assumption.
Qed.

(** [hash] stays inside an array that ends in two NUL bytes or more. *)
Lemma bucket_of_padded (k : nat) (t : list ascii) :
  (2 <= k)%nat -> nul_free t ->
  exists i, bucket_of (t ++ replicate k NUL) = Some i.
Proof.
  intros Hk Ht. destruct k as [|[|k]]; try lia.
  destruct t as [|c t].
  - eexists. reflexivity.
  - change (replicate (S (S k)) NUL) with (NUL :: replicate (S k) NUL).
    unfold bucket_of. rewrite hash_name by (congruence || assumption).
    eexists. reflexivity.
Qed.

(** A path of at most MAX_PATH - 2 characters has a bucket: neither
    [fileName] nor [hash] leaves the array [newNode] copied it to. *)
Lemma path_bucket_defined (path : string) :
  (strlen path + 1 < MAX_PATH)%nat -> exists i, path_bucket path = Some i.
Proof.
  intros Hlen. unfold path_bucket, node_bucket, record_of.
  cbn [filePath fileName].
  rewrite strncpy_fits by lia.
  set (k := (MAX_PATH - strlen path)%nat).
  assert (Hk : (2 <= k)%nat) by (subst k; lia).
  destruct (fileName_loop_padded k (list_ascii_of_string (cchars path))
              (list_ascii_of_string (cchars path) ++ replicate k NUL))
    as (t & Ht & ->).
  - lia.
  - apply cchars_nul_free.
  - eexists. split; [apply cchars_nul_free|reflexivity].
  - cbn. now apply bucket_of_padded.
Qed.

(** ** Without a table *)

Lemma trackFile_unallocated (path : option string) (mtime : Z)
      (heap : alloc) (r : registry) :
  fileTable r = None ->
  (forall rc r', trackFile path mtime heap r = Some (rc, r') ->
                 rc = 1 /\ r' = r)
  /\ (forall p, path = Some p -> (strlen p + 1 < MAX_PATH)%nat ->
                trackFile path mtime heap r = Some (1, r))
  /\ (path = None -> trackFile path mtime heap r = Some (1, r)).
Proof.
  intros Et. split; [|split].
  - intros rc r' H.
    apply trackFile_cases in H as [H|(tbl & n & i & _ & Et' & _)];
      [assumption|congruence].
  - intros p -> Hlen. unfold trackFile, newNode.
    destruct (malloc_node heap); cbn; [|reflexivity].
    destruct (malloc_path heap); cbn; [|reflexivity].
    destruct (path_bucket_defined p Hlen) as [i Hi].
    exact (insertNode_unallocated (record_of p mtime) r i Et Hi).
  - intros ->. unfold trackFile, newNode.
    destruct (malloc_node heap); reflexivity.
Qed.

Lemma freeFileTable_table (r : registry) :
  fileTable (snd (freeFileTable r)) = None.
Proof.
  unfold freeFileTable. destruct (fileTable r) eqn:E; cbn; [reflexivity|exact E].
Qed.

(** C6. A call of [trackFile] before [initializeFileTable] was ever
    called (the statics as at program start), or after [freeFileTable]
    released the table, never succeeds: whenever it returns, it returns
    the nonzero value 1 and leaves the registry as it was; and for every
    path that fits the path array (and for a NULL path) it does return,
    without reading outside the array. *)
Theorem trackFile_not_initialized
        (path : option string) (mtime : Z) (heap : alloc) (r0 : registry) :
  forall r, r = startup \/ r = snd (freeFileTable r0) ->
    (forall rc r', trackFile path mtime heap r = Some (rc, r') ->
                   rc = 1 /\ rc <> 0 /\ r' = r)
    /\ (forall p, path = Some p -> (strlen p + 1 < MAX_PATH)%nat ->
                  trackFile path mtime heap r = Some (1, r))
    /\ (path = None -> trackFile path mtime heap r = Some (1, r)).
Proof.
  intros r Hr.
  assert (Et : fileTable r = None).
  { destruct Hr as [->| ->]; [reflexivity|apply freeFileTable_table]. }
  destruct (trackFile_unallocated path mtime heap r Et) as (H1 & H2 & H3).
  split; [|split; assumption].
  intros rc r' H. destruct (H1 rc r' H) as [-> ->]. repeat split. discriminate.
Qed.

Lemma trackFile_not_initialized_witness :
  trackFile (Some "/d/a.txt"%string) 100 alloc_ok startup = Some (1, startup)
  /\ trackFile (Some "/d/a.txt"%string) 100 alloc_ok (snd (freeFileTable fresh))
     = Some (1, snd (freeFileTable fresh)).
Proof.
  split.
  - apply (proj1 (proj2 (trackFile_not_initialized
                           (Some "/d/a.txt"%string) 100 alloc_ok fresh
                           startup (or_introl eq_refl)))
                 "/d/a.txt"%string eq_refl).
    unfold MAX_PATH. cbn. lia.
  - apply (proj1 (proj2 (trackFile_not_initialized
                           (Some "/d/a.txt"%string) 100 alloc_ok fresh
                           (snd (freeFileTable fresh)) (or_intror eq_refl)))
                 "/d/a.txt"%string eq_refl).
    unfold MAX_PATH. cbn. lia.
Defined.

(** ** Lookup *)

(** C7. On an initialised registry, looking up a name whose bucket
    holds no record prints the no-match line on the standard output and
    nothing else: no line goes to the error stream. *)
Theorem findFile_empty_bucket (ctime : Z -> option string)
        (key : list ascii) (r : registry)
        (tbl : gmap Z (list File)) (i : Z) :
  fileTable r = Some tbl ->
  bucket_of key = Some i ->
  bucket r i = [] ->
  exists printed,
    findFile ctime key r = Some printed
    /\ printed = [(stdout, NoMatchFound)]
    /\ Forall (fun e => fst e <> stderr) printed.
Proof.
  intros Et Hi Hb. eexists. split; [|split; [reflexivity|]].
  - unfold findFile. rewrite Et, Hi. cbn.
    unfold bucket in Hb. rewrite Et in Hb. now rewrite Hb.
  - repeat constructor. discriminate.
Qed.

Lemma findFile_empty_bucket_witness :
  exists printed,
    findFile sample_ctime (cstr "b.txt")
             (mkRegistry (Some (<[53766 := [record_of "/d/a.txt" 100]]> ∅)) 1)
    = Some printed
    /\ printed = [(stdout, NoMatchFound)]
    /\ Forall (fun e => fst e <> stderr) printed.
Proof.
  apply (findFile_empty_bucket sample_ctime
           (cstr "b.txt")
           (mkRegistry (Some (<[53766 := [record_of "/d/a.txt" 100]]> ∅)) 1)
           (<[53766 := [record_of "/d/a.txt" 100]]> ∅) 291613).
  - reflexivity.
  - vm_compute. reflexivity.
  - vm_compute. reflexivity.
Defined.

(** ** Traversal *)

Lemma strlen_app_cchars (a b : string) :
  strlen (cchars a ++ b) = (strlen a + strlen b)%nat.
Proof.
  induction a as [|c a IH]; [reflexivity|].
  cbn [cchars strlen]. destruct (is_nul c) eqn:E; [reflexivity|].
  change (String c (cchars a) ++ b)%string with (String c (cchars a ++ b)).
  cbn [strlen]. rewrite E. now rewrite IH.
Qed.

Lemma strlen_cchars_id (a : string) : strlen (cchars a) = strlen a.
Proof.
  induction a as [|c a IH]; [reflexivity|].
  cbn [cchars strlen]. destruct (is_nul c) eqn:E; [reflexivity|].
  cbn [strlen]. rewrite E. now rewrite IH.
Qed.

(** The length of the path that [sprintf] builds. *)
Lemma strlen_pathName (directoryName name : string) :
  strlen (pathName directoryName name)
  = (strlen directoryName + 1 + strlen name)%nat.
Proof.
  unfold pathName. rewrite strlen_app_cchars.
  change (strlen ("/" ++ cchars name)) with (S (strlen (cchars name))).
  rewrite strlen_cchars_id. lia.
Qed.

(** The loop over the entries is sequential: first the entries before,
    then the entries after, in the world the former leave. *)
Lemma scanEntries_app (directoryName : string)
      (f : string -> fsnode -> world -> option world)
      (pre post : list dirent) (w : world) :
  scanEntries directoryName f (pre ++ post) w
  = w1 ← scanEntries directoryName f pre w;
    scanEntries directoryName f post w1.
Proof.
  revert w. induction pre as [|e pre IH]; intros w; [reflexivity|].
  cbn [app scanEntries].
  destruct (d_ino e =? 0); [apply IH|].
  destruct (streq _ "." || streq _ ".."); [apply IH|].
  destruct (MAX_PATH <? _)%nat; [apply IH|].
  destruct (f _ (d_node e) w) as [w'|]; cbn; [apply IH|reflexivity].
Qed.

(** One kept entry: reported and passed over when the path has
    MAX_PATH characters or more (with its terminator it would need more
    than the MAX_PATH bytes of the array), handed to [f] otherwise. *)
Lemma scanEntries_kept (directoryName : string)
      (f : string -> fsnode -> world -> option world)
      (e : dirent) (rest : list dirent) (w : world) :
  kept e = true ->
  scanEntries directoryName f (e :: rest) w
  = if (MAX_PATH <=? strlen (entryPath directoryName e))%nat
    then scanEntries directoryName f rest
           (print stderr (PathTooLong (entryName (d_name e))) w)
    else w' ← f (entryPath directoryName e) (d_node e) w;
         scanEntries directoryName f rest w'.
Proof.
  unfold kept, entryPath. intros Hk.
  apply andb_prop in Hk as [Hino Hname].
  apply negb_true_iff in Hino, Hname.
  cbn [scanEntries]. rewrite Hino, Hname.
  rewrite strlen_pathName.
  set (d := strlen directoryName). set (n := strlen (entryName (d_name e))).
  assert (E : (MAX_PATH <? d + n + 2)%nat = (MAX_PATH <=? d + 1 + n)%nat).
  { destruct (Nat.ltb_spec MAX_PATH (d + n + 2)),
             (Nat.leb_spec MAX_PATH (d + 1 + n)); lia || reflexivity. }
  now rewrite E.
Qed.

(** A kept entry between its siblings, when its path fits or not. *)
Lemma scanEntries_between (directoryName : string)
      (pre post : list dirent) (e : dirent) (w : world) :
  kept e = true ->
  ((strlen (entryPath directoryName e) < MAX_PATH)%nat ->
   scanEntries directoryName scanFile (pre ++ e :: post) w
   = w1 ← scanEntries directoryName scanFile pre w;
     w2 ← scanFile (entryPath directoryName e) (d_node e) w1;
     scanEntries directoryName scanFile post w2)
  /\ ((MAX_PATH <= strlen (entryPath directoryName e))%nat ->
      scanEntries directoryName scanFile (pre ++ e :: post) w
      = w1 ← scanEntries directoryName scanFile pre w;
        scanEntries directoryName scanFile post
          (print stderr (PathTooLong (entryName (d_name e))) w1)).
Proof.
  intros Hk. split; intros Hlen.
  - rewrite scanEntries_app.
    destruct (scanEntries directoryName scanFile pre w) as [w1|];
      cbn [mbind option_bind]; [|reflexivity].
    rewrite (scanEntries_kept _ _ _ _ _ Hk).
    apply Nat.leb_gt in Hlen. now rewrite Hlen.
  - rewrite scanEntries_app.
    destruct (scanEntries directoryName scanFile pre w) as [w1|];
      cbn [mbind option_bind]; [|reflexivity].
    rewrite (scanEntries_kept _ _ _ _ _ Hk).
    apply Nat.leb_le in Hlen. now rewrite Hlen.
Qed.

(** C9, as the code has it. During the traversal of a directory, an
    entry whose constructed path (directory name, separator, entry name)
    has MAX_PATH = 4096 characters or more, so that with its terminator
    it would exceed the MAX_PATH bytes of the path array, is reported as
    too long and passed over without being scanned, and the entries
    after it are processed as the entries before it were; every entry
    whose constructed path is shorter than MAX_PATH is scanned by the
    recursive call. *)
Theorem long_paths_skipped (directoryName : string)
        (pre post : list dirent) (e : dirent) (w : world) :
  kept e = true ->
  strlen (entryPath directoryName e)
  = (strlen directoryName + 1 + strlen (entryName (d_name e)))%nat
  /\ MAX_PATH = 4096%nat
  /\ ((MAX_PATH <= strlen (entryPath directoryName e))%nat ->
      scanEntries directoryName scanFile (pre ++ e :: post) w
      = w1 ← scanEntries directoryName scanFile pre w;
        scanEntries directoryName scanFile post
          (print stderr (PathTooLong (entryName (d_name e))) w1))
  /\ ((strlen (entryPath directoryName e) < MAX_PATH)%nat ->
      scanEntries directoryName scanFile (pre ++ e :: post) w
      = w1 ← scanEntries directoryName scanFile pre w;
        w2 ← scanFile (entryPath directoryName e) (d_node e) w1;
        scanEntries directoryName scanFile post w2).
Proof.
  intros Hk. split; [apply strlen_pathName|]. split; [reflexivity|].
  destruct (scanEntries_between directoryName pre post e w Hk) as [Hfit Hlong].
  split; assumption.
Qed.

Lemma long_paths_skipped_witness :
  (scanEntries long_directory scanFile
     ([] ++ mkDirent 7 "bcdef" (Regular 100) :: [])
     (mkWorld fresh [] [])
   = w1 ← scanEntries long_directory scanFile [] (mkWorld fresh [] []);
     scanEntries long_directory scanFile []
       (print stderr
              (PathTooLong (entryName (d_name (mkDirent 7 "bcdef" (Regular 100)))))
              w1))
  /\ (scanEntries "/d" scanFile
        ([] ++ mkDirent 7 "a.txt" (Regular 100) :: []) (mkWorld fresh [] [])
      = w1 ← scanEntries "/d" scanFile [] (mkWorld fresh [] []);
        w2 ← scanFile (entryPath "/d" (mkDirent 7 "a.txt" (Regular 100)))
                      (d_node (mkDirent 7 "a.txt" (Regular 100))) w1;
        scanEntries "/d" scanFile [] w2).
Proof.
  split.
  - apply (proj1 (proj2 (proj2 (long_paths_skipped
                                  long_directory
                                  [] [] (mkDirent 7 "bcdef" (Regular 100))
                                  (mkWorld fresh [] []) eq_refl)))).
    apply Nat.leb_le. vm_compute. reflexivity.
  - apply (proj2 (proj2 (proj2 (long_paths_skipped
                                  "/d" [] [] (mkDirent 7 "a.txt" (Regular 100))
                                  (mkWorld fresh [] []) eq_refl)))).
    apply Nat.ltb_lt. vm_compute. reflexivity.
Defined.

(** CEX-C9. A directory name of 4090 characters and the entry [bcdef]:
    the constructed path has exactly MAX_PATH = 4096 characters, which
    does not exceed the maximum, and yet the entry is reported as too
    long and not scanned (the registry stays empty). *)
Lemma path_of_max_length_skipped :
  kept (mkDirent 7 "bcdef" (Regular 100)) = true
  /\ strlen (entryPath long_directory (mkDirent 7 "bcdef" (Regular 100)))
     = MAX_PATH
  /\ ~ (MAX_PATH
        < strlen (entryPath long_directory (mkDirent 7 "bcdef" (Regular 100))))%nat
  /\ scanEntries long_directory scanFile [mkDirent 7 "bcdef" (Regular 100)]
                 (mkWorld fresh [] [])
     = Some (print stderr (PathTooLong "bcdef") (mkWorld fresh [] []))
  /\ reg (print stderr (PathTooLong "bcdef") (mkWorld fresh [] [])) = fresh.
Proof.
  assert (El : strlen (entryPath long_directory (mkDirent 7 "bcdef" (Regular 100)))
               = MAX_PATH) by (vm_compute; reflexivity).
  assert (Es : scanEntries long_directory scanFile
                 [mkDirent 7 "bcdef" (Regular 100)] (mkWorld fresh [] [])
               = Some (print stderr (PathTooLong "bcdef") (mkWorld fresh [] [])))
    by (vm_compute; reflexivity).
  split; [reflexivity|]. split; [exact El|]. split; [rewrite El; lia|].
  split; [exact Es|reflexivity].
Qed.


Lemma errors_print_stderr (m : message) (w : world) :
  errors (print stderr m w) = errors w ++ [m].
Proof.
  unfold errors, print. cbn [out].
  rewrite List.filter_app, map_app. reflexivity.
Qed.

Lemma errors_print_stdout (m : message) (w : world) :
  errors (print stdout m w) = errors w.
Proof.
  unfold errors, print. cbn [out].
  rewrite List.filter_app, map_app. cbn. now rewrite app_nil_r.
Qed.

(** ** The records stored *)

Lemma place_Permutation (n : File) (chain : list File) :
  place n chain ≡ₚ n :: chain.
Proof.
  destruct (place_split n chain) as (l1 & l2 & -> & -> & _).
  symmetry. apply Permutation_middle.
Qed.

Lemma place_sublist (n : File) (chain : list File) :
  sublist chain (place n chain).
Proof.
  destruct (place_split n chain) as (l1 & l2 & -> & -> & _).
  apply sublist_app; [reflexivity|]. now apply sublist_cons.
Qed.

Lemma node_bucket_range (n : File) (i : Z) :
  node_bucket n = Some i -> 0 <= i < TBL_SIZE.
Proof.
  unfold node_bucket.
  destruct (fileName (Some (filePath n))) as [name|]; cbn; [|discriminate].
  apply bucket_of_range.
Qed.

(** ** Counting the records of the table *)

Lemma sum_list_map_ext (f g : Z -> nat) (l : list Z) :
  (forall j, In j l -> g j = f j) ->
  sum_list (map g l) = sum_list (map f l).
Proof.
  induction l as [|a l IH]; intros H; [reflexivity|].
  cbn. rewrite (H a) by now left. rewrite IH; [reflexivity|].
  intros j Hj. apply H. now right.
Qed.

Lemma sum_list_map_bump (f g : Z -> nat) (l : list Z) (i : Z) :
  List.NoDup l -> In i l ->
  (forall j, j <> i -> g j = f j) -> g i = S (f i) ->
  sum_list (map g l) = S (sum_list (map f l)).
Proof.
  intros Hnd Hi Hne Hi'. induction l as [|a l IH]; [destruct Hi|].
  inversion Hnd as [|? ? Ha Hnd']; subst. cbn.
  destruct Hi as [->|Hi].
  - rewrite Hi'. rewrite (sum_list_map_ext f g l); [lia|].
    intros j Hj. apply Hne. intros ->. contradiction.
  - rewrite IH by assumption. rewrite Hne; [lia|].
    intros ->. contradiction.
Qed.

Lemma place_length (n : File) (chain : list File) :
  length (place n chain) = S (length chain).
Proof. now rewrite (Permutation_length (place_Permutation n chain)). Qed.

(** One record more in a bucket of the table, one more stored. *)
Lemma stored_insert (r : registry) (tbl : gmap Z (list File))
      (n : File) (i c : Z) :
  fileTable r = Some tbl -> 0 <= i < TBL_SIZE ->
  stored (mkRegistry (Some (<[i := place n (tbl !!! i)]> tbl)) c)
  = S (stored r).
Proof.
  intros Et Hi. unfold stored.
  apply (sum_list_map_bump _ _ _ i).
  - apply NoDup_ListNoDup, NoDup_seqZ.
  - apply list_elem_of_In, elem_of_seqZ. lia.
  - intros j Hj. rewrite bucket_insert_ne by congruence.
    unfold bucket. now rewrite Et.
  - rewrite bucket_insert_eq, place_length. unfold bucket. now rewrite Et.
Qed.

Lemma stored_empty (r : registry) : (forall i, bucket r i = []) -> stored r = 0%nat.
Proof.
  intros He. unfold stored.
  rewrite (sum_list_map_ext (fun _ => 0%nat)).
  - induction (seqZ 0 TBL_SIZE); [reflexivity|assumption].
  - intros j _. now rewrite He.
Qed.

(** A regular file whose path has a bucket, while the table is
    allocated and memory lasts: its record is placed in the chain of
    that bucket and nothing is printed. *)
Lemma scanFile_regular (path : string) (mtime : Z) (w : world)
      (tbl : gmap Z (list File)) (i : Z) :
  fileTable (reg w) = Some tbl -> heap w = [] ->
  path_bucket path = Some i ->
  scanFile path (Regular mtime) w
  = Some (mkWorld
            (mkRegistry
               (Some (<[i := place (record_of path mtime) (tbl !!! i)]> tbl))
               (wrap_long (fileCount (reg w) + 1)))
            [] (out w)).
Proof.
  intros Et Hh Hi.
  cbn [scanFile]. unfold next_alloc. rewrite Hh.
  rewrite trackFile_alloc_ok.
  now rewrite (insertNode_allocated (record_of path mtime) (reg w) tbl i Et Hi).
Qed.

(** A record of the table is still there after one more is placed. *)
Lemma bucket_insert_mono (r : registry) (tbl : gmap Z (list File))
      (m n : File) (i j c : Z) :
  fileTable r = Some tbl ->
  In n (bucket r j) ->
  In n (bucket (mkRegistry (Some (<[i := place m (tbl !!! i)]> tbl)) c) j).
Proof.
  intros Et Hn.
  assert (Eb : bucket r j = tbl !!! j) by (unfold bucket; now rewrite Et).
  rewrite Eb in Hn. destruct (decide (i = j)) as [<-|Hne].
  - rewrite bucket_insert_eq.
    apply (Permutation_in _ (Permutation_sym (place_Permutation m _))).
    now right.
  - now rewrite bucket_insert_ne.
Qed.

(** In a flat directory the files that can be read are registered, each
    with its record in the chain of its bucket, the others reported,
    and none stops the loop. *)
Lemma scanEntries_flat (directoryName : string) (entries : list dirent)
      (w : world) :
  is_Some (fileTable (reg w)) -> heap w = [] ->
  0 <= fileCount (reg w) ->
  fileCount (reg w) + Z.of_nat (length entries) <= LONG_MAX ->
  Forall (flat_entry directoryName) entries ->
  exists w',
    scanEntries directoryName scanFile entries w = Some w'
    /\ fileCount (reg w')
       = fileCount (reg w) + Z.of_nat (length (List.filter readable entries))
    /\ stored (reg w')
       = (stored (reg w) + length (List.filter readable entries))%nat
    /\ (forall j n, In n (bucket (reg w) j) -> In n (bucket (reg w') j))
    /\ (forall e mtime,
          In e entries -> d_node e = Regular mtime ->
          exists i,
            path_bucket (entryPath directoryName e) = Some i
            /\ In (record_of (entryPath directoryName e) mtime)
                  (bucket (reg w') i))
    /\ errors w'
       = errors w
         ++ map (fun e => CantAccessFile (entryPath directoryName e))
                (List.filter inaccessible entries).
Proof.
  revert w. induction entries as [|e entries IH]; intros w Ht Hh H0 Hmax Hall.
  - exists w. split; [reflexivity|]. cbn [List.filter length map].
    rewrite Nat.add_0_r, app_nil_r.
    repeat split; try tauto; try lia. intros e mtime [].
  - apply Forall_cons in Hall as [(Hk & Hlen & Hkind) Hall].
    rewrite (scanEntries_kept _ _ _ _ _ Hk).
    assert (Hfit : (MAX_PATH <=? strlen (entryPath directoryName e))%nat = false)
      by (apply Nat.leb_gt; lia).
    rewrite Hfit. cbn [length] in Hmax.
    assert (Hr : readable e
                 = match d_node e with Regular _ => true | _ => false end)
      by reflexivity.
    assert (Hi : inaccessible e
                 = match d_node e with NoAccess => true | _ => false end)
      by reflexivity.
    cbn [List.filter]. rewrite Hr, Hi in Hkind |- *. clear Hr Hi.
    destruct (d_node e) as [|mtime|dir] eqn:En; cbn in Hkind; [| |discriminate].
    + cbn [scanFile mbind option_bind].
      destruct (IH (print stderr (CantAccessFile (entryPath directoryName e)) w))
        as (w' & E & Hc & Hs & Hm & Hrec & He); try assumption; [cbn; lia|].
      exists w'. split; [exact E|]. split; [exact Hc|]. split; [exact Hs|].
      split; [exact Hm|]. split.
      * intros e' t' [<-|Hin] Hn'; [congruence|]. now apply Hrec.
      * rewrite He, errors_print_stderr. cbn [map]. now rewrite <- app_assoc.
    + destruct Ht as [tbl Et].
      destruct (path_bucket_defined (entryPath directoryName e) Hlen) as [i Hi].
      rewrite (scanFile_regular (entryPath directoryName e) mtime w tbl i Et Hh Hi).
      cbn [mbind option_bind].
      assert (Ew : wrap_long (fileCount (reg w) + 1) = fileCount (reg w) + 1)
        by (apply wrap_long_small; unfold LONG_MIN, LONG_MAX in *; lia).
      rewrite Ew.
      set (rec := record_of (entryPath directoryName e) mtime).
      set (r1 := mkRegistry (Some (<[i := place rec (tbl !!! i)]> tbl))
                            (fileCount (reg w) + 1)).
      assert (Hs1 : stored r1 = S (stored (reg w))).
      { exact (stored_insert (reg w) tbl rec i (fileCount (reg w) + 1) Et
                 (node_bucket_range rec i Hi)). }
      assert (Hrec1 : In rec (bucket r1 i)).
      { unfold r1. rewrite bucket_insert_eq.
        apply (Permutation_in _ (Permutation_sym (place_Permutation rec _))).
        now left. }
      destruct (IH (mkWorld r1 [] (out w)))
        as (w' & E & Hc & Hs & Hm & Hrec & He); try assumption;
        [cbn; eauto|reflexivity|cbn; lia|cbn; lia|].
      cbn [reg] in Hc, Hs, Hm.
      exists w'. split; [exact E|].
      split; [rewrite Hc; cbn [fileCount r1 length]; unfold r1; cbn [fileCount]; lia|].
      split; [rewrite Hs, Hs1; cbn [length]; lia|].
      split; [intros j n Hn; apply Hm;
              exact (bucket_insert_mono (reg w) tbl rec n i j _ Et Hn)|].
      split; [|exact He].
      intros e' t' [<-|Hin] Hn'.
      * assert (t' = mtime) by congruence. subst t'.
        exists i. split; [exact Hi|]. now apply Hm.
      * now apply Hrec.
Qed.

(** C8. A path whose metadata cannot be obtained is reported on the
    error stream and passed over, and the scan goes on: [scanFile]
    returns with the registry untouched, the loop of [scanDirectory]
    continues with the entries that follow, and so in a directory of
    files every readable one is registered, its record stored in the
    chain of its bucket: the table and the count grow by exactly the
    number of readable files (by 2 for two readable files and one
    inaccessible entry) while each inaccessible one is reported once. *)
Theorem inaccessible_entries_skipped :
  (forall path w,
      scanFile path NoAccess w = Some (print stderr (CantAccessFile path) w)
      /\ reg (print stderr (CantAccessFile path) w) = reg w)
  /\ (forall directoryName pre e post w,
         kept e = true ->
         (strlen (entryPath directoryName e) < MAX_PATH)%nat ->
         d_node e = NoAccess ->
         scanEntries directoryName scanFile (pre ++ e :: post) w
         = w1 ← scanEntries directoryName scanFile pre w;
           scanEntries directoryName scanFile post
             (print stderr (CantAccessFile (entryPath directoryName e)) w1))
  /\ (forall directoryName entries w,
         is_Some (fileTable (reg w)) -> heap w = [] ->
         0 <= fileCount (reg w) ->
         fileCount (reg w) + Z.of_nat (length entries) <= LONG_MAX ->
         Forall (flat_entry directoryName) entries ->
         exists w',
           scanFile directoryName (Directory (Some entries)) w = Some w'
           /\ getFileCount (reg w')
              = getFileCount (reg w)
                + Z.of_nat (length (List.filter readable entries))
           /\ stored (reg w')
              = (stored (reg w) + length (List.filter readable entries))%nat
           /\ (forall e mtime,
                 In e entries -> d_node e = Regular mtime ->
                 exists i,
                   path_bucket (entryPath directoryName e) = Some i
                   /\ In (record_of (entryPath directoryName e) mtime)
                         (bucket (reg w') i))
           /\ errors w'
              = errors w
                ++ map (fun e => CantAccessFile (entryPath directoryName e))
                       (List.filter inaccessible entries)).
Proof.
  split; [|split].
  - intros path w. split; reflexivity.
  - intros d pre e post w Hk Hlen Hnode.
    destruct (scanEntries_between d pre post e w Hk) as [E _].
    rewrite (E Hlen), Hnode. reflexivity.
  - intros d entries w Ht Hh H0 Hmax Hall.
    change (scanFile d (Directory (Some entries)) w)
      with (scanEntries d scanFile entries (print stdout (ScanningDirectory d) w)).
    destruct (scanEntries_flat d entries (print stdout (ScanningDirectory d) w))
      as (w' & E & Hc & Hs & _ & Hrec & He); try assumption.
    exists w'. split; [exact E|]. split; [exact Hc|]. split; [exact Hs|].
    split; [exact Hrec|].
    now rewrite He, errors_print_stdout.
Qed.

Lemma inaccessible_entries_skipped_witness :
  (scanEntries "/d" scanFile
     ([mkDirent 11 "a.txt" (Regular 100)]
        ++ mkDirent 12 "locked" NoAccess :: [mkDirent 13 "b.txt" (Regular 200)])
     (mkWorld fresh [] [])
   = w1 ← scanEntries "/d" scanFile [mkDirent 11 "a.txt" (Regular 100)]
                      (mkWorld fresh [] []);
     scanEntries "/d" scanFile [mkDirent 13 "b.txt" (Regular 200)]
       (print stderr
              (CantAccessFile (entryPath "/d" (mkDirent 12 "locked" NoAccess)))
              w1))
  /\ (exists w',
         scanFile "/d" (Directory (Some two_files_one_locked))
                  (mkWorld fresh [] [])
         = Some w'
         /\ getFileCount (reg w')
            = getFileCount (reg (mkWorld fresh [] []))
              + Z.of_nat (length (List.filter readable two_files_one_locked))
         /\ stored (reg w')
            = (stored (reg (mkWorld fresh [] []))
               + length (List.filter readable two_files_one_locked))%nat
         /\ (forall e mtime,
               In e two_files_one_locked -> d_node e = Regular mtime ->
               exists i,
                 path_bucket (entryPath "/d" e) = Some i
                 /\ In (record_of (entryPath "/d" e) mtime) (bucket (reg w') i))
         /\ errors w'
            = errors (mkWorld fresh [] [])
              ++ map (fun e => CantAccessFile (entryPath "/d" e))
                     (List.filter inaccessible two_files_one_locked)).
Proof.
  split.
  - apply (proj1 (proj2 inaccessible_entries_skipped)
                 "/d"%string [mkDirent 11 "a.txt" (Regular 100)]
                 (mkDirent 12 "locked" NoAccess)
                 [mkDirent 13 "b.txt" (Regular 200)] (mkWorld fresh [] [])).
    + reflexivity.
    + apply Nat.ltb_lt. vm_compute. reflexivity.
    + reflexivity.
  - apply (proj2 (proj2 inaccessible_entries_skipped)
                 "/d"%string two_files_one_locked (mkWorld fresh [] [])).
    + cbn. eauto.
    + reflexivity.
    + cbn. lia.
    + vm_compute. discriminate.
    + assert (Hf : forall e,
                 kept e = true ->
                 (strlen (entryPath "/d" e) + 2 <=? MAX_PATH)%nat = true ->
                 readable e || inaccessible e = true ->
                 flat_entry "/d" e).
      { intros e Hk Hl Hr. apply Nat.leb_le in Hl.
        split; [assumption|]. split; [lia|assumption]. }
      constructor; [apply Hf; vm_compute; reflexivity|].
      constructor; [apply Hf; vm_compute; reflexivity|].
      constructor; [apply Hf; vm_compute; reflexivity|].
      constructor.
Defined.

(** The numbers of that directory: two readable files, one inaccessible
    entry, a table that was empty. *)
Example two_files_one_locked_numbers :
  length (List.filter readable two_files_one_locked) = 2%nat
  /\ map (fun e => CantAccessFile (entryPath "/d" e))
         (List.filter inaccessible two_files_one_locked)
     = [CantAccessFile "/d/locked"]
  /\ stored (reg (mkWorld fresh [] [])) = 0%nat.
Proof.
  split; [reflexivity|]. split; [reflexivity|].
  apply stored_empty. exact bucket_fresh.
Qed.

(** ** The scenarios of the specification, evaluated *)

(** A directory with one subdirectory of two files and one inaccessible
    file: two files registered, one access error, and the scan returns. *)
Example scan_scenario :
  exists w',
    scanFile "/d"
      (Directory
         (Some [mkDirent 2 "." (Directory None);
                mkDirent 1 ".." (Directory None);
                mkDirent 21 "sub"
                  (Directory (Some [mkDirent 31 "x.txt" (Regular 100);
                                    mkDirent 32 "y.txt" (Regular 200)]));
                mkDirent 22 "locked" NoAccess]))
      (mkWorld fresh [] [])
    = Some w'
    /\ getFileCount (reg w') = 2
    /\ errors w' = [CantAccessFile "/d/locked"].
Proof. eexists. split; [vm_compute; reflexivity|]. split; reflexivity. Qed.

(** [/d/a.txt] of time 100 and [/d/sub/a.txt] of time 200 share a
    bucket, which lists the newer one first. *)
Example same_name_scenario :
  exists w',
    scanFile "/d"
      (Directory
         (Some [mkDirent 21 "a.txt" (Regular 100);
                mkDirent 22 "sub"
                  (Directory (Some [mkDirent 31 "a.txt" (Regular 200)]))]))
      (mkWorld fresh [] [])
    = Some w'
    /\ bucket (reg w') 53766
       = [record_of "/d/sub/a.txt" 200; record_of "/d/a.txt" 100].
Proof. eexists. split; vm_compute; reflexivity. Qed.

(** * Further properties of the code *)

(** ** fileName *)

Lemma fileName_loop_slash_free (b rest name : list ascii) :
  nul_free b -> slash_free b ->
  fileName_loop (b ++ NUL :: rest) name = Some name.
Proof.
  revert name. induction b as [|c b IH]; intros name Hn Hs; [reflexivity|].
  inversion Hn as [|? ? Hc Hn']; inversion Hs as [|? ? Hc' Hs']; subst.
  cbn. rewrite (is_nul_false c Hc).
  apply Ascii.eqb_neq in Hc'. rewrite Hc'. now apply IH.
Qed.

Lemma fileName_loop_last_slash (a b rest name : list ascii) :
  nul_free a -> nul_free b -> slash_free b ->
  fileName_loop (a ++ SLASH :: b ++ NUL :: rest) name
  = Some (b ++ NUL :: rest).
Proof.
  intros Ha Hb Hs. revert name.
  induction a as [|c a IH]; intros name.
  - cbn. now apply fileName_loop_slash_free.
  - inversion Ha as [|? ? Hc Ha']; subst.
    cbn. rewrite (is_nul_false c Hc).
    destruct (Ascii.eqb c SLASH); now apply IH.
Qed.

(** Every NUL-free string splits into a directory part, empty or ending
    in a separator, and a part without separator. *)
Lemma split_last_slash (s : list ascii) :
  exists dir base,
    s = dir ++ base /\ slash_free base
    /\ (dir = [] \/ exists d, dir = d ++ [SLASH]).
Proof.
  induction s as [|c s (dir & base & -> & Hs & Hdir)].
  - exists [], []. repeat split; [constructor|now left].
  - destruct Hdir as [->|(d & ->)].
    + destruct (Ascii.eqb_spec c SLASH) as [->|Hc].
      * exists [SLASH], base. repeat split; [assumption|]. right. now exists [].
      * exists [], (c :: base). repeat split; [now constructor|now left].
    + exists (c :: d ++ [SLASH]), base. repeat split; [assumption|].
      right. now exists (c :: d).
Qed.

(** X1. On a NUL-terminated path [fileName] returns the pointer to the
    characters after the last separator, the whole path when it has no
    separator; the array is left as it is (the result is a suffix that
    still ends in the same terminator). *)
Theorem fileName_base_name (s rest : list ascii) :
  nul_free s ->
  exists dir base,
    s = dir ++ base
    /\ slash_free base
    /\ (dir = [] \/ exists d, dir = d ++ [SLASH])
    /\ fileName (Some (s ++ NUL :: rest)) = Some (base ++ NUL :: rest).
Proof.
  intros Hn. destruct (split_last_slash s) as (dir & base & -> & Hs & Hdir).
  exists dir, base. repeat split; try assumption.
  apply Forall_app in Hn as [Hnd Hnb].
  cbn [fileName]. destruct Hdir as [->|(d & ->)].
  - cbn [app]. now apply fileName_loop_slash_free.
  - apply Forall_app in Hnd as [Hnd _].
    rewrite <- !app_assoc. cbn [app].
    now apply fileName_loop_last_slash.
Qed.

Lemma fileName_base_name_witness :
  exists dir base,
    list_ascii_of_string "/d/sub/a.txt" = dir ++ base
    /\ slash_free base
    /\ (dir = [] \/ exists d, dir = d ++ [SLASH])
    /\ fileName (Some (list_ascii_of_string "/d/sub/a.txt" ++ NUL :: []))
       = Some (base ++ NUL :: []).
Proof.
  apply (fileName_base_name (list_ascii_of_string "/d/sub/a.txt") []).
  repeat constructor; discriminate.
Defined.

(** ** newNode and the path array *)

Lemma strncpy_length (s : string) (n : nat) : length (strncpy s n) = n.
Proof.
  revert s. induction n as [|n IH]; intros s; [now destruct s|].
  destruct s as [|c s]; cbn [strncpy].
  - apply length_replicate.
  - destruct (is_nul c); [apply length_replicate|]. cbn. now rewrite IH.
Qed.

Lemma string_at_padded (s : string) (k : nat) :
  (1 <= k)%nat ->
  string_at (list_ascii_of_string (cchars s) ++ replicate k NUL) = cchars s.
Proof.
  intros Hk. induction s as [|c s IH]; cbn [cchars].
  - destruct k; [lia|]. reflexivity.
  - destruct (is_nul c) eqn:E.
    + destruct k; [lia|]. reflexivity.
    + cbn. rewrite E. now rewrite IH.
Qed.

(** X2. A path shorter than MAX_PATH is stored as it is: [newNode]
    returns a record whose array has MAX_PATH bytes and holds, as a
    C string, exactly the characters of the path, with the time given. *)
Theorem newNode_stores_path (path : string) (mtime : Z) :
  (strlen path < MAX_PATH)%nat ->
  exists n,
    newNode (Some path) mtime alloc_ok = Some n
    /\ length (filePath n) = MAX_PATH
    /\ string_at (filePath n) = cchars path
    /\ modified n = mtime.
Proof.
  intros Hlen. eexists. split; [reflexivity|]. cbn [filePath modified].
  split; [apply strncpy_length|]. split; [|reflexivity].
  rewrite strncpy_fits by lia. apply string_at_padded. lia.
Qed.

Lemma newNode_stores_path_witness :
  exists n,
    newNode (Some "/d/a.txt"%string) 100 alloc_ok = Some n
    /\ length (filePath n) = MAX_PATH
    /\ string_at (filePath n) = cchars "/d/a.txt"
    /\ modified n = 100.
Proof.
  apply (newNode_stores_path "/d/a.txt" 100).
  apply Nat.ltb_lt. vm_compute. reflexivity.
Defined.

(** [strncpy] of a string that does not fit copies no terminator. *)
Lemma strncpy_overlong (s : string) (n : nat) :
  (n <= strlen s)%nat -> nul_free (strncpy s n).
Proof.
  revert s. induction n as [|n IH]; intros s Hn; [destruct s; constructor|].
  destruct s as [|c s]; cbn in Hn; [lia|].
  cbn [strncpy]. destruct (is_nul c) eqn:E; [lia|].
  constructor; [now apply Ascii.eqb_neq|]. apply IH. lia.
Qed.

Lemma fileName_loop_unterminated (copy name : list ascii) :
  nul_free copy -> fileName_loop copy name = None.
Proof.
  revert name. induction copy as [|c copy IH]; intros name Hn; [reflexivity|].
  inversion Hn as [|? ? Hc Hn']; subst.
  cbn. rewrite (is_nul_false c Hc).
  destruct (Ascii.eqb c SLASH); now apply IH.
Qed.

(** X3. A path of MAX_PATH characters or more is copied without room for
    its terminator: the array of the new record holds no NUL, and the
    walk of [fileName] in [insertNode] leaves the array, whether or not
    the table is allocated. *)
Theorem trackFile_overlong_path (path : string) (mtime : Z) (r : registry) :
  (MAX_PATH <= strlen path)%nat ->
  nul_free (filePath (record_of path mtime))
  /\ trackFile (Some path) mtime alloc_ok r = None.
Proof.
  intros Hlen.
  assert (Hn : nul_free (strncpy path MAX_PATH)) by now apply strncpy_overlong.
  split; [exact Hn|].
  rewrite trackFile_alloc_ok. unfold insertNode. cbn [fileName filePath record_of].
  now rewrite (fileName_loop_unterminated _ _ Hn).
Qed.

Lemma trackFile_overlong_path_witness :
  nul_free (filePath (record_of (long_directory ++ "/bcdef") 100))
  /\ trackFile (Some (long_directory ++ "/bcdef")%string) 100 alloc_ok fresh
     = None.
Proof.
  apply (trackFile_overlong_path (long_directory ++ "/bcdef")%string 100 fresh).
  apply Nat.leb_le. vm_compute. reflexivity.
Defined.

(** ** The bucket of a name *)

Lemma list_ascii_of_string_app (a b : string) :
  list_ascii_of_string (a ++ b)
  = list_ascii_of_string a ++ list_ascii_of_string b.
Proof.
  induction a as [|c a IH]; [reflexivity|].
  change (String c a ++ b)%string with (String c (a ++ b)).
  cbn. now rewrite IH.
Qed.

Lemma cchars_app_cchars (a b : string) :
  cchars (cchars a ++ b) = (cchars a ++ cchars b)%string.
Proof.
  induction a as [|c a IH]; [reflexivity|].
  cbn [cchars]. destruct (is_nul c) eqn:E; [reflexivity|].
  change (String c (cchars a) ++ b)%string with (String c (cchars a ++ b)).
  cbn [cchars]. rewrite E, IH. reflexivity.
Qed.

Lemma cchars_idem (a : string) : cchars (cchars a) = cchars a.
Proof.
  induction a as [|c a IH]; [reflexivity|].
  cbn [cchars]. destruct (is_nul c) eqn:E; [reflexivity|].
  cbn [cchars]. now rewrite E, IH.
Qed.

(** The characters of the path that [sprintf] builds. *)
Lemma pathName_chars (directoryName name : string) :
  list_ascii_of_string (cchars (pathName directoryName name))
  = list_ascii_of_string (cchars directoryName)
      ++ SLASH :: list_ascii_of_string (cchars name).
Proof.
  unfold pathName. rewrite cchars_app_cchars.
  change (cchars ("/" ++ cchars name)) with (String SLASH (cchars (cchars name))).
  rewrite cchars_idem, list_ascii_of_string_app. reflexivity.
Qed.

(** The bucket of the path built for a plain name is the bucket of the
    name. *)
Lemma path_bucket_pathName (directoryName name : string) :
  plain_name name ->
  (strlen (pathName directoryName name) < MAX_PATH)%nat ->
  path_bucket (pathName directoryName name)
  = Some (hash_fold (fnv1a (list_ascii_of_string (cchars name)))).
Proof.
  intros [Hne Hsf] Hlen.
  unfold path_bucket, node_bucket, record_of. cbn [filePath fileName].
  rewrite strncpy_fits by lia. rewrite pathName_chars.
  destruct (MAX_PATH - strlen (pathName directoryName name))%nat
    as [|k] eqn:Ek; [lia|].
  cbn [replicate]. rewrite <- app_assoc. cbn [app].
  rewrite fileName_loop_last_slash
    by (apply cchars_nul_free || assumption).
  cbn. unfold bucket_of. rewrite hash_name; [reflexivity| |apply cchars_nul_free].
  intros E. apply Hne. rewrite <- strlen_cchars_id.
  destruct (cchars name); [reflexivity|discriminate].
Qed.

Lemma name_bucket (directoryName name : string) :
  plain_name name ->
  (strlen (pathName directoryName name) < MAX_PATH)%nat ->
  exists i,
    path_bucket (pathName directoryName name) = Some i
    /\ bucket_of (cstr (cchars name)) = Some i.
Proof.
  intros Hp Hlen. eexists.
  split; [now apply path_bucket_pathName|].
  destruct Hp as [Hne Hsf]. unfold bucket_of, cstr.
  rewrite hash_name; [reflexivity| |apply cchars_nul_free].
  intros E. apply Hne. rewrite <- strlen_cchars_id.
  destruct (cchars name); [reflexivity|discriminate].
Qed.

(** X4. Files of the same name land in the same bucket, whatever
    directory they are found in, and it is the bucket [findFile] looks
    in for that name: for a non-empty name without separator and any
    two directory names with which the path fits the array, the index
    [insertNode] computes is [hash] of the name. *)
Theorem same_name_same_bucket (dir1 dir2 name : string) :
  plain_name name ->
  (strlen (pathName dir1 name) < MAX_PATH)%nat ->
  (strlen (pathName dir2 name) < MAX_PATH)%nat ->
  exists i,
    path_bucket (pathName dir1 name) = Some i
    /\ path_bucket (pathName dir2 name) = Some i
    /\ bucket_of (cstr (cchars name)) = Some i.
Proof.
  intros Hp H1 H2.
  destruct (name_bucket dir1 name Hp H1) as (i & Hi1 & Hk).
  destruct (name_bucket dir2 name Hp H2) as (i2 & Hi2 & Hk2).
  exists i. repeat split; congruence.
Qed.

Lemma same_name_same_bucket_witness :
  exists i,
    path_bucket (pathName "/d" "a.txt") = Some i
    /\ path_bucket (pathName "/d/sub" "a.txt") = Some i
    /\ bucket_of (cstr (cchars "a.txt")) = Some i.
Proof.
  apply (same_name_same_bucket "/d" "/d/sub" "a.txt").
  - split; [discriminate|repeat constructor; discriminate].
  - apply Nat.ltb_lt. vm_compute. reflexivity.
  - apply Nat.ltb_lt. vm_compute. reflexivity.
Defined.

(** ** What a registration changes *)

Lemma newNode_record (path : option string) (mtime : Z) (heap : alloc)
      (n : File) :
  newNode path mtime heap = Some n ->
  exists p, path = Some p /\ n = record_of p mtime.
Proof.
  unfold newNode. destruct (malloc_node heap); [|discriminate].
  destruct path as [p|]; [|discriminate].
  destruct (malloc_path heap); [|discriminate].
  intros [= <-]. now exists p.
Qed.

(** X5. A call of [trackFile] that returns a nonzero value has changed
    nothing, neither the table nor the count; and whatever the table,
    it returns 1 when an allocation fails or the path is NULL. *)
Theorem trackFile_failure_changes_nothing
        (path : option string) (mtime : Z) (heap : alloc) (r : registry) :
  (forall rc r', trackFile path mtime heap r = Some (rc, r') ->
                 rc <> 0 -> r' = r)
  /\ (malloc_node heap = false \/ malloc_path heap = false \/ path = None ->
      trackFile path mtime heap r = Some (1, r)).
Proof.
  split.
  - intros rc r' H Hrc.
    apply trackFile_cases in H as [[_ ->]|(tbl & n & i & -> & _)];
      [reflexivity|congruence].
  - unfold trackFile, newNode. intros [H|[H| ->]].
    + now rewrite H.
    + destruct (malloc_node heap); [|reflexivity].
      destruct path; [|reflexivity]. now rewrite H.
    + destruct (malloc_node heap); reflexivity.
Qed.

Lemma trackFile_failure_changes_nothing_witness :
  trackFile (Some "/d/a.txt"%string) 100 (mkAlloc true false) fresh
  = Some (1, fresh).
Proof.
  apply (proj2 (trackFile_failure_changes_nothing
                  (Some "/d/a.txt"%string) 100 (mkAlloc true false) fresh)).
  right. left. reflexivity.
Defined.

(** A call that returns 0 was on an allocated table, and placed the
    record of its path in the chain of its bucket. *)
Lemma trackFile_success (path : string) (mtime : Z) (heap : alloc)
      (r r' : registry) :
  trackFile (Some path) mtime heap r = Some (0, r') ->
  exists i tbl,
    path_bucket path = Some i /\ fileTable r = Some tbl
    /\ r' = mkRegistry
              (Some (<[i := place (record_of path mtime) (tbl !!! i)]> tbl))
              (wrap_long (fileCount r + 1)).
Proof.
  intros H.
  apply trackFile_cases in H as [[? _]|(tbl & n & i & _ & Et & Hi & Hn & ->)];
    [discriminate|].
  apply newNode_record in Hn as (p & [= <-] & ->).
  exists i, tbl. repeat split; assumption.
Qed.

(** X6. A successful registration adds exactly its record to the one
    bucket of its name: that chain afterwards holds the new record and
    the records it held, these in the order they had, and every other
    bucket is as before. *)
Theorem trackFile_adds_one_record
        (path : string) (mtime : Z) (heap : alloc) (r r' : registry) :
  trackFile (Some path) mtime heap r = Some (0, r') ->
  exists i,
    path_bucket path = Some i
    /\ bucket r' i ≡ₚ record_of path mtime :: bucket r i
    /\ sublist (bucket r i) (bucket r' i)
    /\ (forall j, j <> i -> bucket r' j = bucket r j).
Proof.
  intros H. destruct (trackFile_success _ _ _ _ _ H) as (i & tbl & Hi & Et & ->).
  exists i.
  assert (Eb : forall j, bucket r j = tbl !!! j)
    by (intros j; unfold bucket; now rewrite Et).
  split; [exact Hi|]. rewrite bucket_insert_eq, Eb.
  split; [apply place_Permutation|]. split; [apply place_sublist|].
  intros j Hj. rewrite bucket_insert_ne by congruence. now rewrite Eb.
Qed.

Lemma trackFile_adds_one_record_witness :
  exists i,
    path_bucket "/d/a.txt" = Some i
    /\ bucket (mkRegistry (Some (<[53766 := [record_of "/d/a.txt" 100]]> ∅)) 1) i
       ≡ₚ record_of "/d/a.txt" 100 :: bucket fresh i
    /\ sublist (bucket fresh i)
               (bucket (mkRegistry
                          (Some (<[53766 := [record_of "/d/a.txt" 100]]> ∅)) 1) i)
    /\ (forall j, j <> i ->
          bucket (mkRegistry
                    (Some (<[53766 := [record_of "/d/a.txt" 100]]> ∅)) 1) j
          = bucket fresh j).
Proof.
  apply (trackFile_adds_one_record "/d/a.txt" 100 alloc_ok fresh).
  vm_compute. reflexivity.
Defined.

(** ** Invariants, through registrations and through a traversal *)

Section Invariant.

Variable P : registry -> Prop.

Hypothesis P_trackFile :
  forall path mtime heap r rc r',
    P r -> trackFile path mtime heap r = Some (rc, r') -> P r'.

Lemma trackFiles_invariant (calls : list registration) (r : registry)
      (rcs : list Z) (r' : registry) :
  P r -> trackFiles calls r = Some (rcs, r') -> P r'.
Proof.
  revert r rcs. induction calls as [|c calls IH]; intros r rcs HP; cbn.
  - now intros [= _ <-].
  - step_trackFiles r rc r1 rcs' r2 E1 E2.
    intros [= _ <-]. eapply IH; [|exact E2]. eapply P_trackFile; eassumption.
Qed.

(** The traversal touches the registry through [trackFile] only. *)
Lemma scanFile_invariant :
  forall (node : fsnode) (path : string) (w w' : world),
    P (reg w) -> scanFile path node w = Some w' -> P (reg w').
Proof.
  fix IH 1. intros node path w w' HP H.
  destruct node as [|mtime|[entries|]].
  - injection H as <-. exact HP.
  - cbn [scanFile] in H. unfold next_alloc in H.
    destruct (heap w) as [|a later];
      (destruct (trackFile _ _ _ (reg w)) as [[rc r]|] eqn:E;
       cbn in H; [|discriminate]);
      apply P_trackFile in E; try assumption;
      injection H as <-; now destruct (rc =? 0).
  - change (scanEntries path scanFile entries
                        (print stdout (ScanningDirectory path) w) = Some w') in H.
    assert (HP0 : P (reg (print stdout (ScanningDirectory path) w))) by exact HP.
    revert H HP0. generalize (print stdout (ScanningDirectory path) w).
    clear w HP. induction entries as [|e entries IHe]; intros w H HP.
    + injection H as <-. exact HP.
    + cbn [scanEntries] in H. destruct e as [ino name child].
      cbn [d_ino d_name d_node] in H.
      destruct (ino =? 0); [now apply (IHe w)|].
      destruct (streq _ "." || streq _ ".."); [now apply (IHe w)|].
      destruct (MAX_PATH <? _)%nat; [now apply (IHe _ H)|].
      destruct (scanFile _ child w) as [w1|] eqn:E; cbn in H; [|discriminate].
      apply (IHe w1 H). exact (IH child _ w w1 HP E).
  - injection H as <-. exact HP.
Qed.

End Invariant.

Lemma trackFile_in_own_bucket (path : option string) (mtime : Z)
      (heap : alloc) (r : registry) (rc : Z) (r' : registry) :
  in_own_bucket r ->
  trackFile path mtime heap r = Some (rc, r') ->
  in_own_bucket r'.
Proof.
  intros Hinv H.
  apply trackFile_cases in H as [[_ ->]|(tbl & n & i & _ & Et & Hi & _ & ->)];
    [assumption|].
  assert (Eb : forall j, bucket r j = tbl !!! j)
    by (intros j; unfold bucket; now rewrite Et).
  intros j m Hm. destruct (decide (i = j)) as [<-|Hne].
  - rewrite bucket_insert_eq in Hm.
    apply (Permutation_in _ (place_Permutation n (tbl !!! i))) in Hm.
    destruct Hm as [<-|Hm].
    + split; [assumption|now apply (node_bucket_range n)].
    + apply Hinv. now rewrite Eb.
  - rewrite bucket_insert_ne in Hm by assumption.
    apply Hinv. now rewrite Eb.
Qed.

Lemma in_own_bucket_empty (r : registry) :
  (forall i, bucket r i = []) -> in_own_bucket r.
Proof. intros He i n Hn. rewrite He in Hn. destruct Hn. Qed.

Lemma in_own_bucket_fresh : in_own_bucket fresh.
Proof. apply in_own_bucket_empty, bucket_fresh. Qed.

Lemma all_newest_first_fresh : all_newest_first fresh.
Proof. intros i. rewrite bucket_fresh. constructor. Qed.

Lemma reached_in_own_bucket (calls : list registration) (rcs : list Z)
      (r : registry) :
  trackFiles calls fresh = Some (rcs, r) -> in_own_bucket r.
Proof.
  intros H.
  exact (trackFiles_invariant in_own_bucket trackFile_in_own_bucket
           calls fresh rcs r in_own_bucket_fresh H).
Qed.

(** X7. After any sequence of registrations on a freshly initialised
    registry, and after any traversal started on one, every record of
    the table sits in the bucket that [hash] of its base name gives,
    and that index lies in [0, TBL_SIZE). *)
Theorem records_in_own_bucket :
  (forall calls rcs r,
      trackFiles calls fresh = Some (rcs, r) -> in_own_bucket r)
  /\ (forall node path w w',
         reg w = fresh -> scanFile path node w = Some w' ->
         in_own_bucket (reg w')).
Proof.
  split.
  - exact reached_in_own_bucket.
  - intros node path w w' Hw H.
    apply (scanFile_invariant in_own_bucket trackFile_in_own_bucket
             node path w w'); [|exact H].
    rewrite Hw. exact in_own_bucket_fresh.
Qed.

Lemma records_in_own_bucket_witness :
  exists w',
    scanFile "/d"
      (Directory
         (Some [mkDirent 21 "a.txt" (Regular 100);
                mkDirent 22 "sub"
                  (Directory (Some [mkDirent 31 "a.txt" (Regular 200)]))]))
      (mkWorld fresh [] [])
    = Some w'
    /\ in_own_bucket (reg w').
Proof.
  eexists. split; [vm_compute; reflexivity|].
  apply (proj2 records_in_own_bucket
               (Directory
                  (Some [mkDirent 21 "a.txt" (Regular 100);
                         mkDirent 22 "sub"
                           (Directory (Some [mkDirent 31 "a.txt" (Regular 200)]))]))
               "/d"%string (mkWorld fresh [] [])).
  - reflexivity.
  - vm_compute. reflexivity.
Defined.

(** X8. A traversal keeps the chains in order: started in a world whose
    chains are all newest first (a freshly initialised registry is one),
    whatever the tree, it ends with every chain newest first. *)
Theorem scanFile_newest_first (node : fsnode) (path : string) (w w' : world) :
  all_newest_first (reg w) ->
  scanFile path node w = Some w' ->
  forall i, newest_first (bucket (reg w') i).
Proof.
  intros Hw H.
  exact (scanFile_invariant all_newest_first trackFile_newest_first
           node path w w' Hw H).
Qed.

Lemma scanFile_newest_first_witness :
  exists w',
    scanFile "/d"
      (Directory
         (Some [mkDirent 21 "a.txt" (Regular 100);
                mkDirent 22 "sub"
                  (Directory (Some [mkDirent 31 "a.txt" (Regular 200)]))]))
      (mkWorld fresh [] [])
    = Some w'
    /\ forall i, newest_first (bucket (reg w') i).
Proof.
  eexists. split; [vm_compute; reflexivity|].
  apply (scanFile_newest_first
           (Directory
              (Some [mkDirent 21 "a.txt" (Regular 100);
                     mkDirent 22 "sub"
                       (Directory (Some [mkDirent 31 "a.txt" (Regular 200)]))]))
           "/d"%string (mkWorld fresh [] [])).
  - exact all_newest_first_fresh.
  - vm_compute. reflexivity.
Defined.

Lemma wrap_long_succ (z : Z) : wrap_long (wrap_long z + 1) = wrap_long (z + 1).
Proof.
  unfold wrap_long.
  replace ((z + 2 ^ 63) mod 2 ^ 64 - 2 ^ 63 + 1 + 2 ^ 63)
    with ((z + 2 ^ 63) mod 2 ^ 64 + 1) by lia.
  rewrite Zplus_mod_idemp_l. f_equal. f_equal. lia.
Qed.

Lemma trackFile_counted_from (c : Z) (path : option string) (mtime : Z)
      (heap : alloc) (r : registry) (rc : Z) (r' : registry) :
  counted_from c r -> trackFile path mtime heap r = Some (rc, r') ->
  counted_from c r'.
Proof.
  intros Hinv H.
  apply trackFile_cases in H as [[_ ->]|(tbl & n & i & _ & Et & Hi & _ & ->)];
    [assumption|].
  unfold counted_from in *. cbn [fileCount].
  rewrite (stored_insert r tbl n i _ Et (node_bucket_range n i Hi)).
  rewrite Hinv, wrap_long_succ. f_equal. lia.
Qed.

Lemma bucket_initialised (r0 : registry) (i : Z) : bucket (initialised r0) i = [].
Proof. unfold bucket, initialised. cbn. now rewrite lookup_total_empty. Qed.

(** Right after an initialisation nothing is stored, and the count is
    what it was. *)
Lemma counted_from_initialised (r0 : registry) :
  LONG_MIN <= fileCount r0 <= LONG_MAX ->
  counted_from (fileCount r0) (initialised r0).
Proof.
  intros Hc. unfold counted_from.
  rewrite (stored_empty (initialised r0) (bucket_initialised r0)).
  rewrite Z.add_0_r, wrap_long_small by assumption. reflexivity.
Qed.

Lemma reached_counted_from (r0 : registry) (calls : list registration)
      (rcs : list Z) (r : registry) :
  LONG_MIN <= fileCount r0 <= LONG_MAX ->
  trackFiles calls (initialised r0) = Some (rcs, r) ->
  counted_from (fileCount r0) r.
Proof.
  intros Hc H.
  exact (trackFiles_invariant (counted_from (fileCount r0))
           (trackFile_counted_from (fileCount r0))
           calls (initialised r0) rcs r (counted_from_initialised r0 Hc) H).
Qed.

Lemma reached_in_own_bucket_from (r0 : registry) (calls : list registration)
      (rcs : list Z) (r : registry) :
  trackFiles calls (initialised r0) = Some (rcs, r) -> in_own_bucket r.
Proof.
  intros H.
  exact (trackFiles_invariant in_own_bucket trackFile_in_own_bucket
           calls (initialised r0) rcs r
           (in_own_bucket_empty _ (bucket_initialised r0)) H).
Qed.

(** X9. [getFileCount] is the count at the last initialisation plus
    the records stored since: whatever the state [r0] in which
    [initializeFileTable] succeeded, after any sequence of registrations
    and after any traversal that follow it, the count is the count of
    [r0] plus the number of records in the buckets, taken as a [long].
    So it is the number of records stored exactly when the table was
    initialised at program start, with the count still 0 (and that
    number fits a [long]); after a teardown and a second initialisation
    it stays ahead by the old count. *)
Theorem count_is_records_stored :
  (forall r0 calls rcs r,
      LONG_MIN <= getFileCount r0 <= LONG_MAX ->
      trackFiles calls (initialised r0) = Some (rcs, r) ->
      getFileCount r = wrap_long (getFileCount r0 + Z.of_nat (stored r)))
  /\ (forall r0 node path w w',
         LONG_MIN <= getFileCount r0 <= LONG_MAX ->
         reg w = initialised r0 -> scanFile path node w = Some w' ->
         getFileCount (reg w')
         = wrap_long (getFileCount r0 + Z.of_nat (stored (reg w'))))
  /\ (forall calls rcs r,
         trackFiles calls (initialised startup) = Some (rcs, r) ->
         Z.of_nat (stored r) <= LONG_MAX ->
         getFileCount r = Z.of_nat (stored r)).
Proof.
  split; [|split].
  - intros r0 calls rcs r Hc H. exact (reached_counted_from r0 calls rcs r Hc H).
  - intros r0 node path w w' Hc Hw H.
    apply (scanFile_invariant (counted_from (fileCount r0))
             (trackFile_counted_from (fileCount r0)) node path w w');
      [|exact H].
    rewrite Hw. exact (counted_from_initialised r0 Hc).
  - intros calls rcs r H Hfit.
    assert (Hc : LONG_MIN <= fileCount startup <= LONG_MAX)
      by (unfold LONG_MIN, LONG_MAX; cbn; lia).
    pose proof (reached_counted_from startup calls rcs r Hc H) as Hr.
    unfold getFileCount. rewrite Hr. cbn [fileCount startup].
    rewrite Z.add_0_l. apply wrap_long_small.
    unfold LONG_MIN, LONG_MAX in *. lia.
Qed.

Lemma count_is_records_stored_witness :
  getFileCount
    (mkRegistry (Some (<[291613 := [record_of "/d/b.txt" 200]]> ∅)) 2)
  = wrap_long
      (getFileCount (mkRegistry None 1)
       + Z.of_nat
           (stored
              (mkRegistry
                 (Some (<[291613 := [record_of "/d/b.txt" 200]]> ∅)) 2))).
Proof.
  refine (proj1 count_is_records_stored (mkRegistry None 1)
                [mkRegistration (Some "/d/b.txt"%string) 200 alloc_ok]
                [0] _ _ _).
  - unfold LONG_MIN, LONG_MAX. cbn. lia.
  - vm_compute. reflexivity.
Defined.

(** ** Printing a chain, and finding a registered file *)

Lemma entryLines_lookup (chain : list File) (i : Z) (k : nat) (n : File) :
  chain !! k = Some n ->
  entryLines i chain !! k
  = Some (stdout, ChainEntry (i + Z.of_nat k) (modified n) (filePath n)).
Proof.
  revert i k. induction chain as [|m chain IH]; intros i k H; [discriminate|].
  destruct k as [|k].
  - injection H as ->. cbn. do 3 f_equal. lia.
  - etrans; [exact (IH (i + 1) k H)|]. do 3 f_equal. lia.
Qed.

Lemma entryLines_length (chain : list File) (i : Z) :
  length (entryLines i chain) = length chain.
Proof.
  revert i. induction chain as [|m chain IH]; intros i; [reflexivity|].
  cbn. now rewrite IH.
Qed.

Lemma entryLines_entries (chain : list File) (i : Z) :
  List.filter is_entry (entryLines i chain) = entryLines i chain.
Proof.
  revert i. induction chain as [|m chain IH]; intros i; [reflexivity|].
  cbn. now rewrite IH.
Qed.

Lemma entryLines_stdout (chain : list File) (i : Z) :
  Forall (fun ev => fst ev = stdout) (entryLines i chain).
Proof.
  revert i. induction chain as [|m chain IH]; intros i; constructor;
    [reflexivity|apply IH].
Qed.

Section WithCtime.

Variable ctime : Z -> option string.

Lemma printEntry_printable (i : Z) (n : File) :
  printable ctime n ->
  printEntry ctime i n = Some (stdout, ChainEntry i (modified n) (filePath n)).
Proof.
  intros [(timeString & Ec & Hlen) Ht]. unfold printEntry. rewrite Ec, Ht.
  apply Nat.eqb_neq in Hlen. now rewrite Hlen.
Qed.

Lemma printEntry_unprintable (i : Z) (n : File) :
  unprintable ctime n -> printEntry ctime i n = None.
Proof.
  unfold printEntry. intros [E|[(timeString & E & Hlen)|Ht]].
  - now rewrite E.
  - rewrite E. apply Nat.eqb_eq in Hlen. now rewrite Hlen.
  - destruct (ctime (modified n)) as [timeString|]; [|reflexivity].
    destruct (strlen timeString =? 0)%nat; [reflexivity|]. now rewrite Ht.
Qed.

Lemma printEntries_printable (chain : list File) (i : Z) :
  Forall (printable ctime) chain ->
  printEntries ctime i chain = Some (entryLines i chain).
Proof.
  intros H. revert i. induction H as [|n chain Hn _ IH]; intros i; [reflexivity|].
  cbn [printEntries entryLines]. rewrite (printEntry_printable i n Hn), IH.
  reflexivity.
Qed.

Lemma printEntries_unprintable (chain : list File) (i : Z) (m : File) :
  In m chain -> unprintable ctime m -> printEntries ctime i chain = None.
Proof.
  intros Hin Hm. revert i.
  induction chain as [|n chain IH]; intros i; [destruct Hin|].
  cbn [printEntries]. destruct Hin as [->|Hin].
  - now rewrite (printEntry_unprintable i m Hm).
  - destruct (printEntry ctime i n); [|reflexivity].
    cbn [mbind option_bind]. now rewrite (IH Hin).
Qed.

Lemma printFileChain_unprintable (chain : list File) (m : File) :
  In m chain -> unprintable ctime m -> printFileChain ctime chain = None.
Proof.
  intros Hin Hm. destruct chain as [|n next]; [destruct Hin|].
  cbn [printFileChain].
  destruct (fileName (Some (filePath n))); [|reflexivity].
  cbn [mbind option_bind].
  now rewrite (printEntries_unprintable (n :: next) 1 m Hin Hm).
Qed.

(** X10. [printFileChain] prints nothing for an empty chain.  For a
    chain whose first path is NUL-terminated and whose records all have
    a time [ctime] formats and a path array holding a NUL, it prints a
    header with the number of records and the base name of the first,
    then one line per record, in chain order and numbered from 1, then
    a newline, all on the standard output (chains of at most INT_MAX
    records, the counters being [int]).  When some record of the chain
    has a time for which [ctime] returns NULL (or an empty string), or
    a path array without NUL, the call has no defined result: [strlen]
    is given NULL, the write of the NUL falls outside the string, or
    [%s] reads past the array. *)
Theorem printFileChain_lists_chain :
  printFileChain ctime [] = Some []
  /\ (forall (n : File) (rest : list File) (name : list ascii),
         fileName (Some (filePath n)) = Some name ->
         Forall (printable ctime) (n :: rest) ->
         Z.of_nat (length (n :: rest)) <= INT_MAX ->
         exists lines,
           printFileChain ctime (n :: rest)
           = Some ((stdout, ChainHeader (Z.of_nat (length (n :: rest))) name)
                     :: lines ++ [(stdout, Newline)])
           /\ length lines = length (n :: rest)
           /\ (forall k m, (n :: rest) !! k = Some m ->
                 lines !! k
                 = Some (stdout,
                         ChainEntry (Z.of_nat k + 1) (modified m) (filePath m))))
  /\ (forall (chain : list File) (m : File),
         In m chain -> unprintable ctime m -> printFileChain ctime chain = None).
Proof.
  split; [reflexivity|]. split; [|exact printFileChain_unprintable].
  intros n rest name Hname Hall _.
  exists (entryLines 1 (n :: rest)). split; [|split].
  - cbn [printFileChain]. rewrite Hname. cbn [mbind option_bind].
    rewrite (printEntries_printable (n :: rest) 1 Hall).
    cbn [mbind option_bind]. do 4 f_equal. cbn [length]. lia.
  - apply entryLines_length.
  - intros k m Hk. etrans; [exact (entryLines_lookup _ 1 k m Hk)|].
    do 3 f_equal. lia.
Qed.

Lemma fileName_loop_terminated (copy name x : list ascii) :
  fileName_loop copy name = Some x -> terminated copy = true.
Proof.
  revert name. induction copy as [|c copy IH]; intros name H; [discriminate|].
  cbn in H. cbn [terminated existsb]. fold (terminated copy).
  destruct (is_nul c); [reflexivity|]. cbn [orb].
  destruct (Ascii.eqb c SLASH); eapply IH; exact H.
Qed.

Lemma node_bucket_fileName (n : File) (i : Z) :
  node_bucket n = Some i ->
  exists name, fileName (Some (filePath n)) = Some name.
Proof.
  unfold node_bucket.
  destruct (fileName (Some (filePath n))) as [name|]; [eauto|discriminate].
Qed.

Lemma node_bucket_terminated (n : File) (i : Z) :
  node_bucket n = Some i -> terminated (filePath n) = true.
Proof.
  intros H. destruct (node_bucket_fileName n i H) as [name Hn].
  exact (fileName_loop_terminated _ _ _ Hn).
Qed.

(** What [printFileChain] prints for a chain of records that are in
    their bucket and have times [ctime] formats: an entry line for each
    record, and nothing on the error stream. *)
Lemma printFileChain_in_bucket (chain : list File) (i : Z) :
  (forall n, In n chain -> node_bucket n = Some i) ->
  (forall n, In n chain -> formats ctime (modified n)) ->
  exists printed,
    printFileChain ctime chain = Some printed
    /\ List.filter is_entry printed = entryLines 1 chain
    /\ Forall (fun ev => fst ev = stdout) printed.
Proof.
  intros Hin Hf. destruct chain as [|n rest].
  - exists []. repeat split. constructor.
  - destruct (node_bucket_fileName n i (Hin n (or_introl eq_refl)))
      as [name Hname].
    assert (Hall : Forall (printable ctime) (n :: rest)).
    { apply List.Forall_forall. intros m Hm. split; [now apply Hf|].
      exact (node_bucket_terminated m i (Hin m Hm)). }
    eexists. cbn [printFileChain]. rewrite Hname. cbn [mbind option_bind].
    rewrite (printEntries_printable (n :: rest) 1 Hall).
    cbn [mbind option_bind].
    split; [reflexivity|]. split.
    + cbn [List.filter is_entry snd].
      rewrite List.filter_app, entryLines_entries. cbn. now rewrite app_nil_r.
    + constructor; [reflexivity|]. apply Forall_app. split.
      * apply entryLines_stdout.
      * repeat constructor.
Qed.

(** X11. A registered file is found under its name: in a registry
    reached by registrations from a fresh one, once [trackFile] has
    returned 0 for the path of a plain name in some directory,
    [findFile] of that name prints, on the standard output only, a
    chain with an entry line for the file, its time and its path,
    provided [ctime] formats every time in that chain; and when [ctime]
    returns NULL for the time of the file, [findFile] of the name has
    no defined result ([strlen] is given NULL). *)
Theorem registered_file_is_found
        (calls : list registration) (rcs : list Z) (r r' : registry)
        (directoryName name : string) (mtime : Z) (heap : alloc) :
  trackFiles calls fresh = Some (rcs, r) ->
  plain_name name ->
  (strlen (pathName directoryName name) < MAX_PATH)%nat ->
  trackFile (Some (pathName directoryName name)) mtime heap r = Some (0, r') ->
  ((forall i m,
       bucket_of (cstr (cchars name)) = Some i -> In m (bucket r' i) ->
       formats ctime (modified m)) ->
   exists printed k,
     findFile ctime (cstr (cchars name)) r' = Some printed
     /\ In (stdout,
            ChainEntry k mtime
                       (filePath (record_of (pathName directoryName name) mtime)))
           printed
     /\ Forall (fun ev => fst ev = stdout) printed)
  /\ (ctime mtime = None -> findFile ctime (cstr (cchars name)) r' = None).
Proof.
  intros Hr Hplain Hlen Ht.
  assert (Hown : in_own_bucket r').
  { eapply trackFile_in_own_bucket; [|exact Ht].
    exact (reached_in_own_bucket calls rcs r Hr). }
  destruct (name_bucket directoryName name Hplain Hlen) as (i & Hi & Hkey).
  set (rec := record_of (pathName directoryName name) mtime) in *.
  assert (Hrec : In rec (bucket r' i)).
  { destruct (trackFile_success _ _ _ _ _ Ht) as (i' & tbl & Hi' & _ & ->).
    assert (i' = i) by congruence. subst i'. rewrite bucket_insert_eq.
    apply (Permutation_in _ (Permutation_sym (place_Permutation _ _))).
    now left. }
  assert (Et : exists tbl, fileTable r' = Some tbl).
  { apply trackFile_cases in Ht as [[? _]|(tbl & n & j & _ & _ & _ & _ & ->)];
      [discriminate|]. cbn. eauto. }
  destruct Et as [tbl Et].
  assert (Eb : bucket r' i = tbl !!! i) by (unfold bucket; now rewrite Et).
  assert (Ef : findFile ctime (cstr (cchars name)) r'
               = printFileChain ctime (bucket r' i)).
  { unfold findFile. rewrite Et, Hkey. cbn [mbind option_bind]. rewrite <- Eb.
    destruct (bucket r' i); [destruct Hrec|reflexivity]. }
  rewrite Ef. split.
  - intros Hfmt.
    destruct (printFileChain_in_bucket (bucket r' i) i) as (printed & Hp & Hf & Hs).
    { intros n Hn. now apply Hown. }
    { intros n Hn. now apply (Hfmt i). }
    apply list_elem_of_In, list_elem_of_lookup in Hrec as [k Hk].
    exists printed, (1 + Z.of_nat k). split; [exact Hp|]. split; [|exact Hs].
    assert (He : In (stdout, ChainEntry (1 + Z.of_nat k) (modified rec) (filePath rec))
                    (List.filter is_entry printed)).
    { rewrite Hf. apply list_elem_of_In, list_elem_of_lookup. exists k.
      now apply entryLines_lookup. }
    apply List.filter_In in He as [He _]. exact He.
  - intros Hnull. apply (printFileChain_unprintable _ rec Hrec). now left.
Qed.

Lemma printBuckets_entries (tbl : gmap Z (list File)) (indices : list Z) :
  (forall i n, In n (tbl !!! i) -> node_bucket n = Some i) ->
  (forall i n, In n (tbl !!! i) -> formats ctime (modified n)) ->
  exists printed,
    printBuckets ctime tbl indices = Some printed
    /\ length (List.filter is_entry printed)
       = sum_list (map (fun i => length (tbl !!! i)) indices)
    /\ Forall (fun ev => fst ev = stdout) printed.
Proof.
  intros Hown Hfmt. induction indices as [|i indices (later & El & Hl & Hs)].
  - exists []. repeat split. constructor.
  - destruct (printFileChain_in_bucket (tbl !!! i) i (Hown i) (Hfmt i))
      as (printed & Ep & Hf & Hp).
    exists (printed ++ later). cbn [printBuckets]. rewrite Ep, El.
    split; [reflexivity|]. split.
    + rewrite List.filter_app, length_app, Hf, entryLines_length, Hl.
      reflexivity.
    + apply Forall_app. now split.
Qed.

Lemma printBuckets_unprintable (tbl : gmap Z (list File)) (indices : list Z)
      (i : Z) (m : File) :
  In i indices -> In m (tbl !!! i) -> unprintable ctime m ->
  printBuckets ctime tbl indices = None.
Proof.
  intros Hi Hm Hu. induction indices as [|j indices IH]; [destruct Hi|].
  cbn [printBuckets]. destruct Hi as [->|Hi].
  - now rewrite (printFileChain_unprintable _ m Hm Hu).
  - destruct (printFileChain ctime (tbl !!! j)); [|reflexivity].
    cbn [mbind option_bind]. now rewrite (IH Hi).
Qed.

Lemma printFileTable_unprintable (r : registry) (i : Z) (m : File) :
  is_Some (fileTable r) -> 0 <= i < TBL_SIZE ->
  In m (bucket r i) -> unprintable ctime m ->
  printFileTable ctime r = None.
Proof.
  intros [tbl Et] Hi Hm Hu. unfold printFileTable. rewrite Et.
  assert (Eb : bucket r i = tbl !!! i) by (unfold bucket; now rewrite Et).
  rewrite Eb in Hm.
  rewrite (printBuckets_unprintable tbl (seqZ 0 TBL_SIZE) i m);
    [reflexivity| |exact Hm|exact Hu].
  apply list_elem_of_In, elem_of_seqZ. lia.
Qed.

(** X12. [printFileTable] lists every tracked file once: after
    [initializeFileTable] succeeded in any state [r0] and any sequence
    of registrations followed, if [ctime] formats every time in the
    table, it prints, on the standard output only, as many entry lines
    as there are records in the table, and [getFileCount] is the count
    of [r0] plus that number (as a [long]).  With the table not
    allocated it prints the one line [FileTable is NULL!]; and when
    some record of the table has a time for which [ctime] returns NULL
    the call has no defined result ([strlen] is given NULL). *)
Theorem printFileTable_lists_every_file :
  (forall r0 calls rcs r,
      LONG_MIN <= getFileCount r0 <= LONG_MAX ->
      trackFiles calls (initialised r0) = Some (rcs, r) ->
      (forall j m, In m (bucket r j) -> formats ctime (modified m)) ->
      exists printed,
        printFileTable ctime r = Some (Chains printed)
        /\ length (List.filter is_entry printed) = stored r
        /\ getFileCount r
           = wrap_long (getFileCount r0
                        + Z.of_nat (length (List.filter is_entry printed)))
        /\ Forall (fun ev => fst ev = stdout) printed)
  /\ (forall r, fileTable r = None ->
                printFileTable ctime r = Some FileTableIsNull)
  /\ (forall r i m,
         is_Some (fileTable r) -> 0 <= i < TBL_SIZE ->
         In m (bucket r i) -> ctime (modified m) = None ->
         printFileTable ctime r = None).
Proof.
  split; [|split].
  - intros r0 calls rcs r Hc Hr Hfmt.
    destruct (trackFiles_table _ _ _ _ Hr) as [tbl Et];
      [unfold initialised; cbn; eauto|].
    assert (Eb : forall j, bucket r j = tbl !!! j)
      by (intros j; unfold bucket; now rewrite Et).
    destruct (printBuckets_entries tbl (seqZ 0 TBL_SIZE))
      as (printed & Ep & Hl & Hs).
    { intros i n Hn. rewrite <- Eb in Hn.
      now apply (reached_in_own_bucket_from r0 calls rcs r Hr). }
    { intros i n Hn. rewrite <- Eb in Hn. now apply (Hfmt i). }
    assert (Est : length (List.filter is_entry printed) = stored r).
    { rewrite Hl. unfold stored. apply sum_list_map_ext.
      intros j _. now rewrite Eb. }
    exists printed. unfold printFileTable. rewrite Et, Ep.
    split; [reflexivity|]. split; [exact Est|]. split; [|exact Hs].
    rewrite Est. exact (reached_counted_from r0 calls rcs r Hc Hr).
  - intros r Et. unfold printFileTable. now rewrite Et.
  - intros r i m Ht Hi Hm Hnull.
    apply (printFileTable_unprintable r i m Ht Hi Hm). now left.
Qed.

End WithCtime.

Lemma sample_ctime_formats (t : Z) :
  0 <= t < 253402300800 -> formats sample_ctime t.
Proof.
  intros Ht. unfold formats, sample_ctime.
  destruct (Z.leb_spec 0 t); [|lia].
  destruct (Z.ltb_spec t 253402300800); [|lia].
  eexists. split; [reflexivity|]. vm_compute. discriminate.
Qed.

Lemma printFileChain_lists_chain_witness :
  exists lines,
    printFileChain sample_ctime
                   [record_of "/d/sub/a.txt" 200; record_of "/d/a.txt" 100]
    = Some ((stdout,
             ChainHeader
               (Z.of_nat (length [record_of "/d/sub/a.txt" 200;
                                  record_of "/d/a.txt" 100]))
               (list_ascii_of_string "a.txt" ++ replicate 4084 NUL))
              :: lines ++ [(stdout, Newline)])
    /\ length lines
       = length [record_of "/d/sub/a.txt" 200; record_of "/d/a.txt" 100]
    /\ (forall k m,
          [record_of "/d/sub/a.txt" 200; record_of "/d/a.txt" 100] !! k
          = Some m ->
          lines !! k
          = Some (stdout,
                  ChainEntry (Z.of_nat k + 1) (modified m) (filePath m))).
Proof.
  apply (proj1 (proj2 (printFileChain_lists_chain sample_ctime))
               (record_of "/d/sub/a.txt" 200) [record_of "/d/a.txt" 100]).
  - vm_compute. reflexivity.
  - repeat constructor;
      try (apply sample_ctime_formats; cbn; lia); vm_compute; reflexivity.
  - vm_compute. discriminate.
Defined.

Lemma registered_file_is_found_witness :
  exists printed k,
    findFile sample_ctime (cstr (cchars "a.txt"))
             (mkRegistry (Some (<[53766 := [record_of "/d/a.txt" 100]]> ∅)) 1)
    = Some printed
    /\ In (stdout,
           ChainEntry k 100 (filePath (record_of (pathName "/d" "a.txt") 100)))
          printed
    /\ Forall (fun ev => fst ev = stdout) printed.
Proof.
  refine (proj1 (registered_file_is_found sample_ctime [] [] fresh
                   (mkRegistry
                      (Some (<[53766 := [record_of "/d/a.txt" 100]]> ∅)) 1)
                   "/d" "a.txt" 100 alloc_ok _ _ _ _) _).
  - reflexivity.
  - split; [discriminate|repeat constructor; discriminate].
  - apply Nat.ltb_lt. vm_compute. reflexivity.
  - vm_compute. reflexivity.
  - intros i m Hi Hm.
    assert (i = 53766) by (vm_compute in Hi; congruence). subst i.
    rewrite bucket_insert_eq in Hm. destruct Hm as [<-|[]].
    apply sample_ctime_formats. cbn. lia.
Defined.

Lemma printFileTable_lists_every_file_witness :
  exists printed,
    printFileTable sample_ctime
      (mkRegistry (Some (<[291613 := [record_of "/d/b.txt" 200]]> ∅)) 2)
    = Some (Chains printed)
    /\ length (List.filter is_entry printed)
       = stored
           (mkRegistry (Some (<[291613 := [record_of "/d/b.txt" 200]]> ∅)) 2)
    /\ getFileCount
         (mkRegistry (Some (<[291613 := [record_of "/d/b.txt" 200]]> ∅)) 2)
       = wrap_long (getFileCount (mkRegistry None 1)
                    + Z.of_nat (length (List.filter is_entry printed)))
    /\ Forall (fun ev => fst ev = stdout) printed.
Proof.
  refine (proj1 (printFileTable_lists_every_file sample_ctime)
                (mkRegistry None 1)
                [mkRegistration (Some "/d/b.txt"%string) 200 alloc_ok]
                [0] _ _ _ _).
  - unfold LONG_MIN, LONG_MAX. cbn. lia.
  - vm_compute. reflexivity.
  - intros j m Hm. destruct (decide (291613 = j)) as [<-|Hne].
    + rewrite bucket_insert_eq in Hm. destruct Hm as [<-|[]].
      apply sample_ctime_formats. cbn. lia.
    + rewrite bucket_insert_ne in Hm by assumption.
      rewrite lookup_total_empty in Hm. destruct Hm.
Defined.

(** A time [ctime] cannot format, in a chain of one record: nothing
    defined is printed, by [printFileChain] and so by [findFile] and
    [printFileTable]. *)
Example printFileChain_time_out_of_range :
  sample_ctime (2 ^ 62) = None
  /\ printFileChain sample_ctime [record_of "/d/a.txt" (2 ^ 62)] = None
  /\ findFile sample_ctime (cstr "a.txt")
              (mkRegistry
                 (Some (<[53766 := [record_of "/d/a.txt" (2 ^ 62)]]> ∅)) 1)
     = None
  /\ printFileTable sample_ctime
       (mkRegistry
          (Some (<[53766 := [record_of "/d/a.txt" (2 ^ 62)]]> ∅)) 1)
     = None.
Proof.
  split; [reflexivity|]. split; [vm_compute; reflexivity|].
  split; [vm_compute; reflexivity|].
  refine (printFileTable_unprintable sample_ctime _ 53766
            (record_of "/d/a.txt" (2 ^ 62)) _ _ _ _).
  - cbn. eauto.
  - unfold TBL_SIZE. lia.
  - rewrite bucket_insert_eq. now left.
  - now left.
Qed.

(** ** Teardown *)

(** X13. [freeFileTable] releases the table once: on an allocated table
    it returns 0 and leaves no table; every further call, like a call
    before any initialisation, returns 1 and changes nothing; and from
    then on [trackFile] cannot succeed, [findFile] prints its error on
    the error stream and [printFileTable] its NULL line, until the
    table is initialised again. *)
Theorem freeFileTable_once (r : registry) (tbl : gmap Z (list File)) :
  fileTable r = Some tbl ->
  exists r1,
    freeFileTable r = (0, r1)
    /\ fileTable r1 = None
    /\ freeFileTable r1 = (1, r1)
    /\ freeFileTable startup = (1, startup)
    /\ (forall path mtime heap rc r2,
          trackFile path mtime heap r1 = Some (rc, r2) -> rc = 1 /\ r2 = r1)
    /\ (forall ctime key,
          findFile ctime key r1 = Some [(stderr, TableUninitialized)])
    /\ (forall ctime, printFileTable ctime r1 = Some FileTableIsNull).
Proof.
  intros Et. exists (mkRegistry None (fileCount r)).
  unfold freeFileTable. rewrite Et. cbn [fileTable].
  repeat split;
    match goal with
    | H : trackFile ?p ?t ?a ?r1 = Some _ |- _ =>
        now destruct (proj1 (trackFile_unallocated p t a r1 eq_refl) _ _ H)
    end.
Qed.

Lemma freeFileTable_once_witness :
  exists r1,
    freeFileTable fresh = (0, r1)
    /\ fileTable r1 = None
    /\ freeFileTable r1 = (1, r1)
    /\ freeFileTable startup = (1, startup)
    /\ (forall path mtime heap rc r2,
          trackFile path mtime heap r1 = Some (rc, r2) -> rc = 1 /\ r2 = r1)
    /\ (forall ctime key,
          findFile ctime key r1 = Some [(stderr, TableUninitialized)])
    /\ (forall ctime, printFileTable ctime r1 = Some FileTableIsNull).
Proof. apply (freeFileTable_once fresh ∅). reflexivity. Defined.

(** ** The entries of a directory *)

Lemma scanEntries_not_kept (directoryName : string)
      (f : string -> fsnode -> world -> option world)
      (e : dirent) (rest : list dirent) (w : world) :
  kept e = false ->
  scanEntries directoryName f (e :: rest) w
  = scanEntries directoryName f rest w.
Proof.
  unfold kept. intros Hk. cbn [scanEntries].
  destruct (d_ino e =? 0); [reflexivity|].
  cbn in Hk. apply negb_false_iff in Hk. now rewrite Hk.
Qed.

(** X14. The entries for self and parent, and the unused entries of
    inode 0, are passed over in silence: the loop of [scanDirectory]
    behaves as if they were not in the directory, whatever function it
    applies to the others. *)
Theorem pseudo_entries_ignored (directoryName : string)
        (f : string -> fsnode -> world -> option world)
        (pre post : list dirent) (e : dirent) (w : world) :
  kept e = false ->
  scanEntries directoryName f (pre ++ e :: post) w
  = scanEntries directoryName f (pre ++ post) w.
Proof.
  intros Hk. rewrite !scanEntries_app.
  destruct (scanEntries directoryName f pre w) as [w1|]; [|reflexivity].
  cbn [mbind option_bind]. now apply scanEntries_not_kept.
Qed.

Lemma pseudo_entries_ignored_witness :
  scanEntries "/d" scanFile
    ([mkDirent 2 "." (Directory None)]
       ++ mkDirent 1 ".." (Directory None)
       :: [mkDirent 21 "a.txt" (Regular 100)])
    (mkWorld fresh [] [])
  = scanEntries "/d" scanFile
      ([mkDirent 2 "." (Directory None)]
         ++ [mkDirent 21 "a.txt" (Regular 100)])
      (mkWorld fresh [] []).
Proof.
  apply (pseudo_entries_ignored "/d" scanFile
           [mkDirent 2 "." (Directory None)]
           [mkDirent 21 "a.txt" (Regular 100)]
           (mkDirent 1 ".." (Directory None))).
  reflexivity.
Defined.

(** X15. A subdirectory that [stat] can read but [opendir] cannot open
    is announced, reported on the error stream and left: the registry
    is untouched by it and the entries after it are scanned. *)
Theorem unopenable_directory_skipped (directoryName : string)
        (pre post : list dirent) (e : dirent) (w : world) :
  kept e = true ->
  (strlen (entryPath directoryName e) < MAX_PATH)%nat ->
  d_node e = Directory None ->
  scanEntries directoryName scanFile (pre ++ e :: post) w
  = w1 ← scanEntries directoryName scanFile pre w;
    scanEntries directoryName scanFile post
      (mkWorld (reg w1) (heap w1)
               (out w1
                  ++ [(stdout, ScanningDirectory (entryPath directoryName e));
                      (stderr, CantAccessDirectory (entryPath directoryName e))])).
Proof.
  intros Hk Hlen Hnode.
  destruct (scanEntries_between directoryName pre post e w Hk) as [E _].
  rewrite (E Hlen), Hnode.
  destruct (scanEntries directoryName scanFile pre w) as [w1|]; [|reflexivity].
  cbn [mbind option_bind scanFile scanDirectory].
  unfold print. cbn [reg heap out]. now rewrite <- app_assoc.
Qed.

Lemma unopenable_directory_skipped_witness :
  scanEntries "/d" scanFile
    ([] ++ mkDirent 21 "private" (Directory None)
        :: [mkDirent 22 "a.txt" (Regular 100)])
    (mkWorld fresh [] [])
  = w1 ← scanEntries "/d" scanFile [] (mkWorld fresh [] []);
    scanEntries "/d" scanFile [mkDirent 22 "a.txt" (Regular 100)]
      (mkWorld (reg w1) (heap w1)
               (out w1
                  ++ [(stdout,
                       ScanningDirectory
                         (entryPath "/d" (mkDirent 21 "private" (Directory None))));
                      (stderr,
                       CantAccessDirectory
                         (entryPath "/d" (mkDirent 21 "private" (Directory None))))])).
Proof.
  apply (unopenable_directory_skipped "/d" []
           [mkDirent 22 "a.txt" (Regular 100)]
           (mkDirent 21 "private" (Directory None)) (mkWorld fresh [] [])).
  - reflexivity.
  - apply Nat.ltb_lt. vm_compute. reflexivity.
  - reflexivity.
Defined.

Lemma strlen_chars (s : string) :
  strlen s = length (list_ascii_of_string (cchars s)).
Proof.
  induction s as [|c s IH]; [reflexivity|].
  cbn [strlen cchars]. destruct (is_nul c); [reflexivity|]. cbn. now rewrite IH.
Qed.

Lemma string_at_strncpy (s : string) (n : nat) :
  list_ascii_of_string (string_at (strncpy s n ++ [NUL]))
  = take n (list_ascii_of_string (cchars s)).
Proof.
  revert n. induction s as [|c s IH]; intros [|n]; try reflexivity.
  cbn [strncpy cchars]. destruct (is_nul c) eqn:E; [reflexivity|].
  cbn. rewrite E. cbn. now rewrite IH.
Qed.

Lemma cchars_string_at (mem : list ascii) :
  cchars (string_at mem) = string_at mem.
Proof.
  induction mem as [|c mem IH]; [reflexivity|].
  cbn [string_at]. destruct (is_nul c) eqn:E; [reflexivity|].
  cbn [cchars]. now rewrite E, IH.
Qed.

(** X16. [readDirectoryEntry] keeps at most NAME_MAX characters of a
    name: the name handed to the loop is the first NAME_MAX characters
    of the entry's name, the whole name when it has no more. *)
Theorem entryName_truncates (name : string) :
  list_ascii_of_string (entryName name)
  = take NAME_MAX (list_ascii_of_string (cchars name))
  /\ strlen (entryName name) = Nat.min (strlen name) NAME_MAX
  /\ ((strlen name <= NAME_MAX)%nat -> entryName name = cchars name).
Proof.
  assert (E : list_ascii_of_string (entryName name)
              = take NAME_MAX (list_ascii_of_string (cchars name)))
    by apply string_at_strncpy.
  split; [exact E|]. split.
  - rewrite strlen_chars. unfold entryName at 1. rewrite cchars_string_at.
    fold (entryName name). rewrite E, length_take, <- strlen_chars. lia.
  - intros Hlen. rewrite <- (string_of_list_ascii_of_string (entryName name)), E.
    rewrite take_ge by (rewrite <- strlen_chars; lia).
    apply string_of_list_ascii_of_string.
Qed.

Lemma entryName_truncates_witness : entryName "a.txt" = cchars "a.txt".
Proof.
  apply (proj2 (proj2 (entryName_truncates "a.txt"))).
  apply Nat.leb_le. vm_compute. reflexivity.
Defined.

(** X17. The path array is never overrun: [scanDirectory] applies its
    function only to paths shorter than MAX_PATH, which [sprintf]
    writes into [pathName] with their terminator.  Replacing the
    function by one that fails on any longer path changes nothing. *)
Theorem scanEntries_only_fitting (directoryName : string)
        (f : string -> fsnode -> world -> option world)
        (entries : list dirent) (w : world) :
  scanEntries directoryName (only_fitting f) entries w
  = scanEntries directoryName f entries w.
Proof.
  revert w. induction entries as [|e entries IH]; intros w; [reflexivity|].
  cbn [scanEntries].
  destruct (d_ino e =? 0); [apply IH|].
  destruct (streq _ "." || streq _ ".."); [apply IH|].
  destruct (Nat.ltb_spec MAX_PATH
              (strlen directoryName + strlen (entryName (d_name e)) + 2))
    as [Hlong|Hfit]; [apply IH|].
  assert (Hlt : (strlen (pathName directoryName (entryName (d_name e)))
                 <? MAX_PATH)%nat = true)
    by (apply Nat.ltb_lt; rewrite strlen_pathName; lia).
  assert (Ef : only_fitting f (pathName directoryName (entryName (d_name e)))
                            (d_node e) w
               = f (pathName directoryName (entryName (d_name e))) (d_node e) w)
    by (unfold only_fitting; now rewrite Hlt).
  rewrite Ef.
  destruct (f _ (d_node e) w) as [w1|]; cbn; [apply IH|reflexivity].
Qed.

(** ** The traversal returns *)

Lemma trackFile_returns (path : string) (mtime : Z) (heap : alloc)
      (r : registry) (i : Z) :
  path_bucket path = Some i ->
  exists rc r', trackFile (Some path) mtime heap r = Some (rc, r').
Proof.
  intros Hi. unfold trackFile.
  destruct (newNode (Some path) mtime heap) as [n|] eqn:En; [|eauto].
  apply newNode_record in En as (p & [= <-] & ->).
  destruct (fileTable r) as [tbl|] eqn:Et.
  - rewrite (insertNode_allocated (record_of path mtime) r tbl i Et Hi). eauto.
  - rewrite (insertNode_unallocated (record_of path mtime) r i Et Hi). eauto.
Qed.

(** X18. Over a tree whose entries all have plain names (not empty, no
    separator in them), the traversal of a directory always returns:
    no path it builds makes [trackFile] read outside the path array,
    whatever the depth of the tree, the state of the table and the
    answers of the allocator.  (A regular file given directly needs a
    path with a bucket.) *)
Theorem scanFile_returns :
  forall (node : fsnode) (path : string) (w : world),
    plain_names node ->
    match node with
    | Regular _ => is_Some (path_bucket path)
    | _ => True
    end ->
    is_Some (scanFile path node w).
Proof.
  fix IH 1. intros node path w Hn Htop.
  destruct node as [|mtime|[entries|]].
  - cbn. eauto.
  - destruct Htop as [i Hi]. cbn [scanFile].
    destruct (next_alloc w) as [a later].
    destruct (trackFile_returns path mtime a (reg w) i Hi) as (rc & r' & ->).
    cbn. eauto.
  - change (is_Some (scanEntries path scanFile entries
                                 (print stdout (ScanningDirectory path) w))).
    generalize (print stdout (ScanningDirectory path) w). clear w Htop.
    induction entries as [|e entries IHe]; intros w; [cbn; eauto|].
    destruct e as [ino name child].
    assert (Hn' : plain_name (entryName name) /\ plain_names child
                  /\ plain_names (Directory (Some entries))) by exact Hn.
    destruct Hn' as (Hname & Hchild & Hrest).
    cbn [scanEntries d_ino d_name d_node].
    destruct (ino =? 0); [now apply IHe|].
    destruct (streq _ "." || streq _ ".."); [now apply IHe|].
    destruct (Nat.ltb_spec MAX_PATH (strlen path + strlen (entryName name) + 2))
      as [Hlong|Hfit]; [now apply IHe|].
    destruct (IH child (pathName path (entryName name)) w Hchild) as [w1 E].
    { destruct child; [exact I| |exact I].
      eexists. apply path_bucket_pathName; [assumption|].
      rewrite strlen_pathName. lia. }
    rewrite E. cbn [mbind option_bind]. now apply IHe.
  - cbn. eauto.
Qed.

Lemma scanFile_returns_witness :
  is_Some
    (scanFile "/d"
       (Directory
          (Some [mkDirent 21 "a.txt" (Regular 100);
                 mkDirent 22 "sub"
                   (Directory (Some [mkDirent 31 "a.txt" (Regular 200)]))]))
       (mkWorld startup [mkAlloc false true] [])).
Proof.
  apply (scanFile_returns
           (Directory
              (Some [mkDirent 21 "a.txt" (Regular 100);
                     mkDirent 22 "sub"
                       (Directory (Some [mkDirent 31 "a.txt" (Regular 200)]))]))
           "/d" (mkWorld startup [mkAlloc false true] [])).
  - repeat split; repeat constructor; discriminate.
  - exact I.
Defined.

(** ** The order of registrations *)

Lemma place_comm_lt (a b : File) (chain : list File) :
  modified a < modified b ->
  place a (place b chain) = place b (place a chain).
Proof.
  intros Hlt. induction chain as [|e rest IH]; cbn.
  - destruct (Z.ltb_spec (modified b) (modified a)),
             (Z.ltb_spec (modified a) (modified b)); try lia. reflexivity.
  - destruct (Z.ltb_spec (modified e) (modified b)),
             (Z.ltb_spec (modified e) (modified a)); cbn;
      repeat match goal with
             | |- context [?x <? ?y] => destruct (Z.ltb_spec x y); try lia
             end; try reflexivity.
    now rewrite IH.
Qed.

Lemma place_comm (a b : File) (chain : list File) :
  modified a <> modified b ->
  place a (place b chain) = place b (place a chain).
Proof.
  intros Hne. destruct (Z.lt_total (modified a) (modified b)) as [H|[H|H]].
  - now apply place_comm_lt.
  - contradiction.
  - symmetry. now apply place_comm_lt.
Qed.

(** X19. The table does not depend on the order in which two files are
    discovered, unless they tie: two registrations that go to different
    buckets, or carry different timestamps, leave the same table and
    count in either order. *)
Theorem registration_order_irrelevant
        (r : registry) (tbl : gmap Z (list File))
        (p1 p2 : string) (t1 t2 : Z) (i1 i2 : Z) :
  fileTable r = Some tbl ->
  path_bucket p1 = Some i1 -> path_bucket p2 = Some i2 ->
  i1 <> i2 \/ t1 <> t2 ->
  exists ra rb r',
    trackFile (Some p1) t1 alloc_ok r = Some (0, ra)
    /\ trackFile (Some p2) t2 alloc_ok ra = Some (0, r')
    /\ trackFile (Some p2) t2 alloc_ok r = Some (0, rb)
    /\ trackFile (Some p1) t1 alloc_ok rb = Some (0, r').
Proof.
  intros Et H1 H2 Hdiff.
  set (n1 := record_of p1 t1). set (n2 := record_of p2 t2).
  set (c := wrap_long (fileCount r + 1)).
  set (ta := <[i1 := place n1 (tbl !!! i1)]> tbl).
  set (tb := <[i2 := place n2 (tbl !!! i2)]> tbl).
  exists (mkRegistry (Some ta) c), (mkRegistry (Some tb) c),
         (mkRegistry (Some (<[i2 := place n2 (ta !!! i2)]> ta))
                     (wrap_long (c + 1))).
  rewrite !trackFile_alloc_ok.
  split; [exact (insertNode_allocated n1 r tbl i1 Et H1)|].
  split; [exact (insertNode_allocated n2 (mkRegistry (Some ta) c) ta i2
                                       eq_refl H2)|].
  split; [exact (insertNode_allocated n2 r tbl i2 Et H2)|].
  etrans; [exact (insertNode_allocated n1 (mkRegistry (Some tb) c) tb i1
                                        eq_refl H1)|].
  cbn [fileCount]. do 3 f_equal. subst ta tb.
  destruct (decide (i1 = i2)) as [<-|Hne].
  - rewrite !lookup_total_insert_eq, !insert_insert_eq.
    rewrite (place_comm n1 n2); [reflexivity|].
    subst n1 n2. cbn. destruct Hdiff; congruence.
  - rewrite !lookup_total_insert_ne by congruence.
    f_equal. apply insert_insert_ne. congruence.
Qed.

Lemma registration_order_irrelevant_witness :
  exists ra rb r',
    trackFile (Some "/d/a.txt"%string) 100 alloc_ok fresh = Some (0, ra)
    /\ trackFile (Some "/d/sub/a.txt"%string) 200 alloc_ok ra = Some (0, r')
    /\ trackFile (Some "/d/sub/a.txt"%string) 200 alloc_ok fresh = Some (0, rb)
    /\ trackFile (Some "/d/a.txt"%string) 100 alloc_ok rb = Some (0, r').
Proof.
  apply (registration_order_irrelevant fresh ∅
           "/d/a.txt" "/d/sub/a.txt" 100 200 53766 53766).
  - reflexivity.
  - vm_compute. reflexivity.
  - vm_compute. reflexivity.
  - right. discriminate.
Defined.

(** ** freeNode *)

Lemma chain_at_allocated (m : gmap positive block) (n : option positive)
      (files : list File) (blocks : list positive) :
  chain_at m n files blocks -> forall b, b ∈ blocks -> is_Some (m !! b).
Proof.
  induction 1 as [|a p next f files blocks Ha Hp _ IH]; intros b Hb.
  - inversion Hb.
  - apply elem_of_cons in Hb as [->|Hb]; [eauto|].
    apply elem_of_cons in Hb as [->|Hb]; [eauto|]. now apply IH.
Qed.

(** X20. [freeNode] is not recursive: of the blocks of a chain it
    releases the first node, the path array of the first node and the
    second node, and nothing else.  The path array of the second node
    and every later node with its path array stay allocated, so that
    only a chain of one record is released whole. *)
Theorem freeNode_releases_three (m : gmap positive block)
        (n : option positive) (files : list File) (blocks : list positive) :
  chain_at m n files blocks ->
  NoDup blocks ->
  exists m',
    freeNode n m = Some m'
    /\ (forall b, b ∈ take 3 blocks -> m' !! b = None)
    /\ (forall b, b ∈ drop 3 blocks -> m' !! b = m !! b /\ is_Some (m !! b))
    /\ (forall b, b ∉ blocks -> m' !! b = m !! b).
Proof.
  intros Hc Hnd.
  destruct Hc as [|a p next f files blocks Ha Hp Hrest].
  - exists m. split; [reflexivity|]. split; [|split].
    + intros b Hb. inversion Hb.
    + intros b Hb. inversion Hb.
    + reflexivity.
  - cbn [freeNode]. rewrite Ha.
    apply NoDup_cons in Hnd as [Hap Hnd].
    apply NoDup_cons in Hnd as [Hpb Hnd].
    assert (Hne : a <> p) by (intros ->; apply Hap; now left).
    destruct Hrest as [|a2 p2 next2 f2 files2 blocks2 Ha2 Hp2 Hrest2].
    + eexists. split; [reflexivity|]. cbn [free take drop].
      split; [|split].
      * intros b Hb. apply list_elem_of_In in Hb.
        destruct Hb as [<-|[<-|[]]].
        -- apply lookup_delete_eq.
        -- rewrite lookup_delete_ne by congruence. apply lookup_delete_eq.
      * intros b Hb. inversion Hb.
      * intros b Hb.
        rewrite !lookup_delete_ne; [reflexivity| |];
          intros ->; apply Hb; repeat constructor.
    + eexists. split; [reflexivity|]. cbn [free take drop].
      apply NoDup_cons in Hnd as [Ha2b Hnd].
      assert (Hne2 : a <> a2) by (intros ->; apply Hap; right; now left).
      assert (Hne3 : p <> a2) by (intros ->; apply Hpb; now left).
      split; [|split].
      * intros b Hb. apply list_elem_of_In in Hb.
        destruct Hb as [<-|[<-|[<-|[]]]].
        -- apply lookup_delete_eq.
        -- rewrite lookup_delete_ne by congruence. apply lookup_delete_eq.
        -- rewrite !lookup_delete_ne by congruence. apply lookup_delete_eq.
      * intros b Hb. split.
        -- rewrite !lookup_delete_ne; [reflexivity| | |]; intros ->;
             first [exact (Ha2b Hb)
                   |apply Hpb; now right
                   |apply Hap; now do 2 right].
        -- apply elem_of_cons in Hb as [->|Hb']; [eauto|].
           eapply chain_at_allocated; eassumption.
      * intros b Hb.
        rewrite !lookup_delete_ne; [reflexivity| | |];
          intros ->; apply Hb; repeat constructor.
Qed.

Lemma freeNode_releases_three_witness :
  exists m',
    freeNode (Some 1%positive) three_nodes = Some m'
    /\ (forall b, b ∈ take 3 [1; 2; 3; 4; 5; 6]%positive -> m' !! b = None)
    /\ (forall b, b ∈ drop 3 [1; 2; 3; 4; 5; 6]%positive ->
          m' !! b = three_nodes !! b /\ is_Some (three_nodes !! b))
    /\ (forall b, b ∉ [1; 2; 3; 4; 5; 6]%positive ->
          m' !! b = three_nodes !! b).
Proof.
  apply (freeNode_releases_three three_nodes (Some 1%positive)
           [mkFile (strncpy "/d/c" MAX_PATH) 300;
            mkFile (strncpy "/d/b" MAX_PATH) 200;
            mkFile (strncpy "/d/a" MAX_PATH) 100]).
  - apply (chain_at_cons _ 1 2 (Some 3%positive)); [reflexivity|reflexivity|].
    apply (chain_at_cons _ 3 4 (Some 5%positive)); [reflexivity|reflexivity|].
    apply (chain_at_cons _ 5 6 None); [reflexivity|reflexivity|].
    apply chain_at_nil.
  - repeat (apply NoDup_cons_2;
            [rewrite list_elem_of_In; cbn; intuition discriminate|]).
    apply NoDup_nil_2.
Defined.

(** ** What a traversal registers *)

Lemma trackFile_without_table (r0 : registry) :
  fileTable r0 = None ->
  forall path mtime heap r rc r',
    r = r0 -> trackFile path mtime heap r = Some (rc, r') -> r' = r0.
Proof.
  intros Et path mtime heap r rc r' -> H.
  now destruct (proj1 (trackFile_unallocated path mtime heap r0 Et) rc r' H).
Qed.

(** X21. A traversal run while the table is not allocated registers
    nothing: whatever the tree, the registry at the end is the registry
    at the start, table and count. *)
Theorem scanFile_without_table (node : fsnode) (path : string) (w w' : world) :
  fileTable (reg w) = None ->
  scanFile path node w = Some w' ->
  reg w' = reg w.
Proof.
  intros Et H.
  exact (scanFile_invariant (fun r => r = reg w)
           (trackFile_without_table (reg w) Et) node path w w' eq_refl H).
Qed.

Lemma scanFile_without_table_witness :
  exists w',
    scanFile "/d"
      (Directory (Some [mkDirent 21 "a.txt" (Regular 100)]))
      (mkWorld startup [] [])
    = Some w'
    /\ reg w' = reg (mkWorld startup [] []).
Proof.
  eexists. split; [vm_compute; reflexivity|].
  apply (scanFile_without_table
           (Directory (Some [mkDirent 21 "a.txt" (Regular 100)]))
           "/d" (mkWorld startup [] [])).
  - reflexivity.
  - vm_compute. reflexivity.
Defined.

(** X22. With the table allocated and memory to spare, a traversal
    registers every regular file it reaches, once: over a tree of plain
    names it returns, and the number of records in the table has grown
    by the number of regular files behind entries that are kept and
    whose path fits the path array. *)
Theorem scanFile_registers_every_file :
  forall (node : fsnode) (path : string) (w : world),
    plain_names node ->
    match node with
    | Regular _ => is_Some (path_bucket path)
    | _ => True
    end ->
    is_Some (fileTable (reg w)) -> heap w = [] ->
    exists w',
      scanFile path node w = Some w'
      /\ stored (reg w') = (stored (reg w) + reachable_files path node)%nat
      /\ is_Some (fileTable (reg w')) /\ heap w' = [].
Proof.
  fix IH 1. intros node path w Hn Htop Ht Hh.
  destruct node as [|mtime|[entries|]].
  - eexists. split; [reflexivity|]. cbn [reg print reachable_files].
    rewrite Nat.add_0_r. repeat split; assumption.
  - destruct Htop as [i Hi]. destruct Ht as [tbl Et].
    cbn [scanFile]. unfold next_alloc. rewrite Hh.
    rewrite trackFile_alloc_ok.
    rewrite (insertNode_allocated (record_of path mtime) (reg w) tbl i Et Hi).
    eexists. split; [reflexivity|]. cbn [reg heap reachable_files].
    split; [|split; [cbn; eauto|reflexivity]].
    pose proof (stored_insert (reg w) tbl (record_of path mtime) i
                  (wrap_long (fileCount (reg w) + 1)) Et
                  (node_bucket_range (record_of path mtime) i Hi)) as Hs.
    rewrite Nat.add_1_r. exact Hs.
  - change (scanFile path (Directory (Some entries)) w)
      with (scanEntries path scanFile entries
                        (print stdout (ScanningDirectory path) w)).
    assert (Ht0 : is_Some (fileTable
                    (reg (print stdout (ScanningDirectory path) w)))) by exact Ht.
    assert (Hh0 : heap (print stdout (ScanningDirectory path) w) = []) by exact Hh.
    change (stored (reg w))
      with (stored (reg (print stdout (ScanningDirectory path) w))).
    revert Ht0 Hh0. generalize (print stdout (ScanningDirectory path) w).
    clear w Htop Ht Hh.
    induction entries as [|e entries IHe]; intros w Ht Hh.
    + exists w. split; [reflexivity|]. cbn [reachable_files].
      rewrite Nat.add_0_r. repeat split; assumption.
    + destruct e as [ino name child].
      assert (Hn' : plain_name (entryName name) /\ plain_names child
                    /\ plain_names (Directory (Some entries))) by exact Hn.
      destruct Hn' as (Hname & Hchild & Hrest).
      assert (Er : reachable_files path
                     (Directory (Some (mkDirent ino name child :: entries)))
                   = ((if kept (mkDirent ino name child)
                          && (strlen (pathName path (entryName name))
                              <? MAX_PATH)%nat
                       then reachable_files (pathName path (entryName name)) child
                       else 0)
                      + reachable_files path (Directory (Some entries)))%nat)
        by reflexivity.
      rewrite Er. clear Er.
      destruct (kept (mkDirent ino name child)) eqn:Ek.
      * rewrite (scanEntries_kept _ _ _ _ _ Ek).
        unfold entryPath. cbn [d_name d_node andb].
        destruct (Nat.leb_spec MAX_PATH (strlen (pathName path (entryName name))))
          as [Hlong|Hfit].
        -- assert (El : (strlen (pathName path (entryName name)) <? MAX_PATH)%nat
                        = false) by (apply Nat.ltb_ge; lia).
           rewrite El.
           destruct (IHe Hrest (print stderr (PathTooLong (entryName name)) w))
             as (w' & E & Hs & Ht' & Hh'); try assumption.
           exists w'. split; [exact E|]. split; [|split; assumption].
           rewrite Hs. cbn [reg print]. lia.
        -- assert (El : (strlen (pathName path (entryName name)) <? MAX_PATH)%nat
                        = true) by (apply Nat.ltb_lt; lia).
           rewrite El.
           destruct (IH child (pathName path (entryName name)) w Hchild)
             as (w1 & E1 & Hs1 & Ht1 & Hh1); try assumption.
           { destruct child; [exact I| |exact I].
             eexists. now apply path_bucket_pathName. }
           rewrite E1. cbn [mbind option_bind].
           destruct (IHe Hrest w1 Ht1 Hh1) as (w' & E & Hs & Ht' & Hh').
           exists w'. split; [exact E|]. split; [|split; assumption].
           rewrite Hs, Hs1. lia.
      * rewrite (scanEntries_not_kept _ _ _ _ _ Ek). cbn [andb].
        destruct (IHe Hrest w Ht Hh) as (w' & E & Hs & Ht' & Hh').
        exists w'. split; [exact E|]. split; [|split; assumption].
        rewrite Hs. lia.
  - eexists. split; [reflexivity|]. cbn [reg print reachable_files].
    rewrite Nat.add_0_r. repeat split; assumption.
Qed.

Lemma scanFile_registers_every_file_witness :
  exists w',
    scanFile "/d"
      (Directory
         (Some [mkDirent 2 "." (Directory None);
                mkDirent 21 "sub"
                  (Directory (Some [mkDirent 31 "x.txt" (Regular 100);
                                    mkDirent 32 "y.txt" (Regular 200)]));
                mkDirent 22 "locked" NoAccess]))
      (mkWorld fresh [] [])
    = Some w'
    /\ stored (reg w')
       = (stored (reg (mkWorld fresh [] []))
          + reachable_files "/d"
              (Directory
                 (Some [mkDirent 2 "." (Directory None);
                        mkDirent 21 "sub"
                          (Directory (Some [mkDirent 31 "x.txt" (Regular 100);
                                            mkDirent 32 "y.txt" (Regular 200)]));
                        mkDirent 22 "locked" NoAccess])))%nat
    /\ is_Some (fileTable (reg w')) /\ heap w' = [].
Proof.
  apply (scanFile_registers_every_file
           (Directory
              (Some [mkDirent 2 "." (Directory None);
                     mkDirent 21 "sub"
                       (Directory (Some [mkDirent 31 "x.txt" (Regular 100);
                                         mkDirent 32 "y.txt" (Regular 200)]));
                     mkDirent 22 "locked" NoAccess]))
           "/d" (mkWorld fresh [] [])).
  - repeat split; repeat constructor; discriminate.
  - exact I.
  - unfold fresh. cbn. eauto.
  - reflexivity.
Defined.

(** The files reached in that tree are the two of the subdirectory. *)
Example reachable_files_scenario :
  reachable_files "/d"
    (Directory
       (Some [mkDirent 2 "." (Directory None);
              mkDirent 21 "sub"
                (Directory (Some [mkDirent 31 "x.txt" (Regular 100);
                                  mkDirent 32 "y.txt" (Regular 200)]));
              mkDirent 22 "locked" NoAccess]))
  = 2%nat.
Proof. vm_compute. reflexivity. Qed.
